(** * News bias analysis: the classifier, the CSV reader, the model cache
      and the extractive summariser

    A shallow embedding of [app/api/bias/route.ts] and of the summary
    route, and the properties of the written specification proved (or
    refuted) on it.

    Conventions of the embedding.
    - A JavaScript string is the list of its UTF-16 code units ([list N]).
    - A JavaScript number that holds a count is a [nat]: the counts are
      non-negative integers far below 2^53, where double arithmetic is
      exact.
    - A JavaScript number that holds a score is a [jsnum]: an extended
      real with NaN.  Rounding of IEEE doubles and the sign of zero are
      not represented; [Math.log] and [Math.exp] are the real [ln] and
      [exp]. *)

From Stdlib Require Import Reals Lra Lia List NArith String Ascii Bool Sorted
  Permutation.
From stdpp Require Import base gmap.

Import ListNotations.

Local Open Scope nat_scope.

(* ===================================================================== *)
(** ** JavaScript numbers *)
(* ===================================================================== *)

Inductive jsnum : Type :=
| JNaN
| JNegInf
| JFin (r : R)
| JPosInf.

Definition num (n : nat) : jsnum := JFin (INR n).

Definition jneg (a : jsnum) : jsnum :=
  match a with
  | JNaN => JNaN
  | JNegInf => JPosInf
  | JFin r => JFin (- r)
  | JPosInf => JNegInf
  end.

Definition jadd (a b : jsnum) : jsnum :=
  match a, b with
  | JNaN, _ | _, JNaN => JNaN
  | JPosInf, JNegInf | JNegInf, JPosInf => JNaN
  | JPosInf, _ | _, JPosInf => JPosInf
  | JNegInf, _ | _, JNegInf => JNegInf
  | JFin x, JFin y => JFin (x + y)
  end.

Definition jsub (a b : jsnum) : jsnum := jadd a (jneg b).

(** Division; a zero divisor is taken as +0. *)
Definition jdiv (a b : jsnum) : jsnum :=
  match a, b with
  | JNaN, _ | _, JNaN => JNaN
  | JFin x, JFin y =>
      if Req_EM_T y 0 then
        (if Req_EM_T x 0 then JNaN
         else if Rlt_dec 0 x then JPosInf else JNegInf)
      else JFin (x / y)
  | JFin _, _ => JFin 0
  | JPosInf, JFin y => if Rlt_dec y 0 then JNegInf else JPosInf
  | JNegInf, JFin y => if Rlt_dec y 0 then JPosInf else JNegInf
  | _, _ => JNaN
  end.

(** [Math.log]. *)
Definition jlog (a : jsnum) : jsnum :=
  match a with
  | JNaN | JNegInf => JNaN
  | JPosInf => JPosInf
  | JFin x =>
      if Rlt_dec x 0 then JNaN
      else if Req_EM_T x 0 then JNegInf
      else JFin (ln x)
  end.

(** [Math.exp]. *)
Definition jexp (a : jsnum) : jsnum :=
  match a with
  | JNaN => JNaN
  | JNegInf => JFin 0
  | JPosInf => JPosInf
  | JFin x => JFin (exp x)
  end.

(** [a > b]. *)
Definition jgt (a b : jsnum) : bool :=
  match a, b with
  | JNaN, _ | _, JNaN => false
  | JPosInf, JPosInf => false
  | JPosInf, _ => true
  | _, JNegInf => match a with JNegInf => false | _ => true end
  | JFin x, JFin y => if Rlt_dec y x then true else false
  | _, _ => false
  end.

(** [Math.max] of two arguments. *)
Definition jmax (a b : jsnum) : jsnum :=
  match a, b with
  | JNaN, _ | _, JNaN => JNaN
  | _, _ => if jgt b a then b else a
  end.

(** Truthiness of a number: [0] and [NaN] are falsy. *)
Definition truthy (a : jsnum) : bool :=
  match a with
  | JNaN => false
  | JFin x => if Req_EM_T x 0 then false else true
  | _ => true
  end.

(** [a || b] on numbers. *)
Definition jor (a b : jsnum) : jsnum := if truthy a then a else b.

(* ===================================================================== *)
(** ** JavaScript strings *)
(* ===================================================================== *)

(** A string is the list of its UTF-16 code units. *)
Abbreviation jsstring := (list N).

(** A literal of Basic Latin text as a JavaScript string. *)
Definition js (s : String.string) : jsstring :=
  List.map Ascii.N_of_ascii (String.list_ascii_of_string s).
Arguments js s%_string.

Definition between (lo hi c : N) : bool := (lo <=? c)%N && (c <=? hi)%N.

Fixpoint str_eqb (a b : jsstring) : bool :=
  match a, b with
  | [], [] => true
  | x :: a', y :: b' => (x =? y)%N && str_eqb a' b'
  | _, _ => false
  end.

Definition str_mem (a : jsstring) (l : list jsstring) : bool :=
  existsb (str_eqb a) l.

(** [s.toLowerCase()], code unit by code unit: Basic Latin and Latin-1
    capitals are mapped, every other code unit is kept. *)
Definition lower_unit (c : N) : N :=
  if between 65 90 c then (c + 32)%N
  else if between 192 222 c && negb (c =? 215)%N then (c + 32)%N
  else c.

Definition toLowerCase (s : jsstring) : jsstring := List.map lower_unit s.

(** [c.toUpperCase()] for one code unit of the class [\w]. *)
Definition upper_unit (c : N) : N :=
  if between 97 122 c then (c - 32)%N else c.

(** White space and line terminators: what [\s] matches and what [trim]
    removes. *)
Definition is_space (c : N) : bool :=
  between 9 13 c || (c =? 32)%N || (c =? 160)%N || (c =? 5760)%N
  || between 8192 8202 c || (c =? 8232)%N || (c =? 8233)%N
  || (c =? 8239)%N || (c =? 8287)%N || (c =? 12288)%N || (c =? 65279)%N.

Definition is_digit (c : N) : bool := between 48 57 c.
Definition is_az (c : N) : bool := between 97 122 c.
Definition is_az09 (c : N) : bool := is_az c || is_digit c.
(** [\w]. *)
Definition is_word (c : N) : bool :=
  is_az c || between 65 90 c || is_digit c || (c =? 95)%N.
Definition is_unit (u c : N) : bool := (c =? u)%N.

Fixpoint dropWhile {A} (p : A -> bool) (l : list A) : list A :=
  match l with
  | x :: l' => if p x then dropWhile p l' else l
  | [] => []
  end.

(** [s.trim()]. *)
Definition trim (s : jsstring) : jsstring :=
  rev (dropWhile is_space (rev (dropWhile is_space s))).

(** [s.slice(0, n)] for [0 <= n]. *)
Definition slice0 (n : nat) (s : jsstring) : jsstring := firstn n s.

(** [parts.join(sep)]. *)
Fixpoint join (sep : jsstring) (parts : list jsstring) : jsstring :=
  match parts with
  | [] => []
  | [p] => p
  | p :: rest => p ++ sep ++ join sep rest
  end.

(** [s.lastIndexOf(c)] for a one-unit needle; [None] is [-1]. *)
Fixpoint lastIndexOf_from (i : nat) (c : N) (s : jsstring) (found : option nat)
  : option nat :=
  match s with
  | [] => found
  | x :: s' =>
      lastIndexOf_from (S i) c s' (if (x =? c)%N then Some i else found)
  end.

Definition lastIndexOf (c : N) (s : jsstring) : option nat :=
  lastIndexOf_from 0 c s None.

(* ===================================================================== *)
(** ** Regular expressions *)
(* ===================================================================== *)

(** The fragment of ECMAScript regular expressions the program uses, with
    a backtracking matcher: alternatives are tried in order and
    quantifiers are greedy. *)
Inductive regex : Type :=
| RChar (p : N -> bool)      (* one code unit of a class *)
| REps
| RSeq (r1 r2 : regex)
| RAlt (r1 r2 : regex)
| RStar (r : regex)
| RBol                       (* ^ *)
| RWordB                     (* \b *)
| RBehind (p : N -> bool).   (* (?<=c) for a one-unit class c *)

Definition RPlus (r : regex) : regex := RSeq r (RStar r).
Definition ROpt (r : regex) : regex := RAlt r REps.

(** [r{n}] *)
Fixpoint RRep (n : nat) (r : regex) : regex :=
  match n with
  | O => REps
  | S n' => RSeq r (RRep n' r)
  end.

(** [r{1,n+1}] *)
Fixpoint RUpTo (n : nat) (r : regex) : regex :=
  match n with
  | O => r
  | S n' => RSeq r (ROpt (RUpTo n' r))
  end.

(** A literal word. *)
Fixpoint RLit (p : N -> N -> bool) (w : jsstring) : regex :=
  match w with
  | [] => REps
  | c :: w' => RSeq (RChar (p c)) (RLit p w')
  end.

Definition word_at (c : option N) : bool :=
  match c with Some x => is_word x | None => false end.

(** The loop of a greedy star: one more round of [body] is tried first,
    and a round that consumes nothing is given up. *)
Fixpoint star_loop
  (body : option N -> jsstring ->
          (option N -> jsstring -> option jsstring) -> option jsstring)
  (k : option N -> jsstring -> option jsstring)
  (n : nat) (prev : option N) (s : jsstring) {struct n} : option jsstring :=
  match n with
  | O => k prev s
  | S n' =>
      match body prev s
              (fun prev' s' =>
                 if List.length s' <? List.length s
                 then star_loop body k n' prev' s' else None) with
      | Some rest => Some rest
      | None => k prev s
      end
  end.

(** [rmatch r prev s k]: match [r] at the head of [s], where [prev] is
    the code unit just before it, and hand what is left to [k].  The
    result is the input that remains after the whole match. *)
Fixpoint rmatch (r : regex) (prev : option N) (s : jsstring)
  (k : option N -> jsstring -> option jsstring) {struct r}
  : option jsstring :=
  match r with
  | RChar p =>
      match s with
      | c :: s' => if p c then k (Some c) s' else None
      | [] => None
      end
  | REps => k prev s
  | RSeq r1 r2 => rmatch r1 prev s (fun prev' s' => rmatch r2 prev' s' k)
  | RAlt r1 r2 =>
      match rmatch r1 prev s k with
      | Some rest => Some rest
      | None => rmatch r2 prev s k
      end
  | RStar r1 => star_loop (rmatch r1) k (S (List.length s)) prev s
  | RBol => match prev with None => k prev s | Some _ => None end
  | RWordB =>
      if xorb (word_at prev) (word_at (head s)) then k prev s else None
  | RBehind p =>
      match prev with
      | Some c => if p c then k prev s else None
      | None => None
      end
  end.

(** One attempt at the current position: the matched text and the rest. *)
Definition match_here (r : regex) (prev : option N) (s : jsstring)
  : option (jsstring * jsstring) :=
  match rmatch r prev s (fun _ rest => Some rest) with
  | Some rest => Some (firstn (List.length s - List.length rest) s, rest)
  | None => None
  end.

Definition last_unit (prev : option N) (m : jsstring) : option N :=
  match rev m with c :: _ => Some c | [] => prev end.

(** The input cut by the successive matches of a global regular
    expression. *)
Inductive piece : Type :=
| Gap (c : N)
| Hit (m : jsstring).

Fixpoint scan (fuel : nat) (r : regex) (prev : option N) (s : jsstring)
  : list piece :=
  match fuel with
  | O => []
  | S fuel' =>
      match match_here r prev s with
      | Some (m, rest) =>
          match m, s with
          | [], c :: s' => Hit [] :: Gap c :: scan fuel' r (Some c) s'
          | [], [] => [Hit []]
          | _, _ => Hit m :: scan fuel' r (last_unit prev m) rest
          end
      | None =>
          match s with
          | c :: s' => Gap c :: scan fuel' r (Some c) s'
          | [] => []
          end
      end
  end.

Definition pieces (r : regex) (s : jsstring) : list piece :=
  scan (S (List.length s)) r None s.

(** [s.match(r) || []] for a global [r]. *)
Definition matchAll (r : regex) (s : jsstring) : list jsstring :=
  flat_map (fun p => match p with Hit m => [m] | Gap _ => [] end)
           (pieces r s).

(** [s.replace(r, by)] for a global [r] and a constant replacement. *)
Definition replaceAll (r : regex) (by_ : jsstring) (s : jsstring) : jsstring :=
  flat_map (fun p => match p with Hit _ => by_ | Gap c => [c] end)
           (pieces r s).

(** [s.split(r)]: the positions are tried from left to right, and a match
    that would end where the current part starts is passed over. *)
Fixpoint split_loop (fuel : nat) (r : regex) (cur : jsstring)
  (prev : option N) (s : jsstring) : list jsstring :=
  match fuel with
  | O => [rev cur ++ s]
  | S fuel' =>
      match s with
      | [] => [rev cur]
      | c :: s' =>
          match match_here r prev s with
          | Some (m, rest) =>
              match cur, m with
              | [], [] => split_loop fuel' r (c :: cur) (Some c) s'
              | _, _ => rev cur :: split_loop fuel' r [] (last_unit prev m) rest
              end
          | None => split_loop fuel' r (c :: cur) (Some c) s'
          end
      end
  end.

Definition split (r : regex) (s : jsstring) : list jsstring :=
  match s with
  | [] => match match_here r None [] with Some _ => [] | None => [[]] end
  | _ => split_loop (2 * List.length s + 1) r [] None s
  end.

(* ===================================================================== *)
(** ** The classifier: app/api/bias/route.ts *)
(* ===================================================================== *)

Inductive Label : Type :=
| neutral
| slightly_biased
| highly_biased.

#[global] Instance Label_eq_dec : EqDecision Label.
Proof. solve_decision. Defined.

Definition label_eqb (a b : Label) : bool := bool_decide (a = b).

(** [Record<Label, A>] written as an object literal with the three keys. *)
Record PerLabel (A : Type) : Type := mkPerLabel {
  at_neutral : A;
  at_slightly : A;
  at_highly : A
}.
Arguments mkPerLabel {A}.
Arguments at_neutral {A}.
Arguments at_slightly {A}.
Arguments at_highly {A}.

Definition pget {A} (r : PerLabel A) (l : Label) : A :=
  match l with
  | neutral => at_neutral r
  | slightly_biased => at_slightly r
  | highly_biased => at_highly r
  end.

Definition pset {A} (r : PerLabel A) (l : Label) (v : A) : PerLabel A :=
  match l with
  | neutral => mkPerLabel v (at_slightly r) (at_highly r)
  | slightly_biased => mkPerLabel (at_neutral r) v (at_highly r)
  | highly_biased => mkPerLabel (at_neutral r) (at_slightly r) v
  end.

(** An object filled key by key ([{} as Record<Label, number>]): its
    entries in insertion order. *)
Abbreviation scores := (list (Label * jsnum)).

Fixpoint oset (o : scores) (l : Label) (v : jsnum) : scores :=
  match o with
  | [] => [(l, v)]
  | (l', v') :: o' =>
      if label_eqb l' l then (l', v) :: o' else (l', v') :: oset o' l v
  end.

(** [o[l]]; a missing property reads as [undefined], which behaves as
    [NaN] in the comparisons and the arithmetic below. *)
Fixpoint oget (o : scores) (l : Label) : jsnum :=
  match o with
  | [] => JNaN
  | (l', v) :: o' => if label_eqb l' l then v else oget o' l
  end.

Definition fromEntries (es : scores) : scores :=
  fold_left (fun o e => oset o (fst e) (snd e)) es [].

Record DatasetRow : Type := mkRow { text : jsstring; label : Label }.

Record BiasModel : Type := mkModel {
  labels : list Label;
  vocab : gset jsstring;
  docCount : PerLabel nat;
  tokenCounts : PerLabel (gmap jsstring nat);
  totalTokens : PerLabel nat;
  trainedOn : nat
}.

Definition stopwords : list jsstring :=
  List.map js
    ["the"; "and"; "for"; "that"; "with"; "this"; "from"; "have"; "has";
     "had"; "are"; "was"; "were"; "but"; "not"; "you"; "your"; "our";
     "their"; "they"; "his"; "her"; "its"; "who"; "what"; "when"; "where";
     "why"; "how"; "can"; "will"; "would"; "could"; "should"; "said";
     "says"; "say"; "into"; "over"; "under"; "than"; "then"; "also";
     "more"; "most"; "some"; "any"; "all"; "because"; "been"; "after";
     "before"; "about"; "against"; "between"; "during"; "without";
     "within"; "while"; "into"; "onto"; "off"; "per"; "via"; "as"; "by";
     "at"; "on"; "in"; "to"; "of"; "a"; "an"; "it"]%string.

Definition tokenize (text : jsstring) : list jsstring :=
  let tokens := matchAll (RPlus (RChar is_az)) (toLowerCase text) in
  List.filter (fun t => (3 <=? List.length t) && negb (str_mem t stopwords)) tokens.

(** [Array.from(new Set(xs))]: the distinct elements in the order of their
    first occurrence. *)
Fixpoint uniq_from (seen : list jsstring) (xs : list jsstring)
  : list jsstring :=
  match xs with
  | [] => []
  | x :: xs' =>
      if str_mem x seen then uniq_from seen xs'
      else x :: uniq_from (x :: seen) xs'
  end.

Definition uniq (xs : list jsstring) : list jsstring := uniq_from [] xs.

Definition fixed_labels : list Label :=
  [neutral; slightly_biased; highly_biased].

(** The accumulators of the training loop. *)
Record Acc : Type := mkAcc {
  a_vocab : gset jsstring;
  a_docCount : PerLabel nat;
  a_tokenCounts : PerLabel (gmap jsstring nat);
  a_totalTokens : PerLabel nat
}.

Definition acc0 : Acc :=
  mkAcc ∅ (mkPerLabel 0 0 0) (mkPerLabel ∅ ∅ ∅) (mkPerLabel 0 0 0).

(** The body of the inner loop, for one distinct token of a row. *)
Definition count_token (l : Label) (a : Acc) (t : jsstring) : Acc :=
  let m := pget (a_tokenCounts a) l in
  mkAcc ({[ t ]} ∪ a_vocab a)
        (a_docCount a)
        (pset (a_tokenCounts a) l (<[ t := default 0 (m !! t) + 1 ]> m))
        (pset (a_totalTokens a) l (pget (a_totalTokens a) l + 1)).

(** The body of the outer loop, for one row. *)
Definition train_row (a : Acc) (row : DatasetRow) : Acc :=
  let toks := uniq (tokenize (text row)) in
  let l := label row in
  let a1 := mkAcc (a_vocab a)
                  (pset (a_docCount a) l (pget (a_docCount a) l + 1))
                  (a_tokenCounts a) (a_totalTokens a) in
  fold_left (count_token l) toks a1.

Definition trainNaiveBayes (rows : list DatasetRow) : BiasModel :=
  let a := fold_left train_row rows acc0 in
  mkModel fixed_labels (a_vocab a) (a_docCount a) (a_tokenCounts a)
          (a_totalTokens a) (List.length rows).

(** [Math.max(...vals)]. *)
Definition maxOf (vals : list jsnum) : jsnum := fold_left jmax vals JNegInf.

(** [xs.reduce((a, b) => a + b, 0)]. *)
Definition sumOf (vals : list jsnum) : jsnum := fold_left jadd vals (JFin 0).

Definition expsOf (sc : scores) : scores :=
  let max := maxOf (List.map snd sc) in
  fromEntries (List.map (fun e => (fst e, jexp (jsub (snd e) max))) sc).

Definition softmaxLogScores (sc : scores) : scores :=
  let exps := expsOf sc in
  let sum := sumOf (List.map snd exps) in
  fromEntries
    (List.map (fun e => (fst e, jdiv (snd e) (jor sum (JFin 1)))) exps).

(** The smoothed likelihood of one query token under one label. *)
Definition tokenProb (m : BiasModel) (V : nat) (l : Label) (t : jsstring)
  : jsnum :=
  let count := default 0 (pget (tokenCounts m) l !! t) in
  jdiv (num (count + 1)) (num (pget (totalTokens m) l + V)).

Definition docTotal (m : BiasModel) : nat :=
  fold_left (fun acc l => acc + pget (docCount m) l) (labels m) 0.

Definition vocabSize (m : BiasModel) : nat := Nat.max 1 (size (vocab m)).

(** The body of the first loop of [predict]: the log-score of one label. *)
Definition logScore (m : BiasModel) (toks : list jsstring) (l : Label)
  : jsnum :=
  let N := docTotal m in
  let V := vocabSize m in
  let prior :=
    jlog (jdiv (num (pget (docCount m) l + 1))
               (num (N + List.length (labels m)))) in
  fold_left (fun ll t => jadd ll (jlog (tokenProb m V l t))) toks prior.

Definition logScores (m : BiasModel) (text : jsstring) : scores :=
  let toks := uniq (tokenize text) in
  fold_left (fun o l => oset o l (logScore m toks l)) (labels m) [].

(** The second loop of [predict]; [None] is the [undefined] that
    [labels[0]] reads from an empty array. *)
Definition pickBest (ls : list Label) (sc : scores) : option Label :=
  fst (fold_left
         (fun st l =>
            if jgt (oget sc l) (snd st) then (Some l, oget sc l) else st)
         ls (head ls, JNegInf)).

Record Prediction : Type := mkPrediction {
  p_label : option Label;
  p_probs : scores
}.

Definition predict (m : BiasModel) (text : jsstring) : Prediction :=
  let sc := logScores m text in
  let probs := softmaxLogScores sc in
  mkPrediction (pickBest (labels m) sc) probs.

(** [xs.sort(cmp)].  The sort is stable, so for a consistent comparator
    its result is determined; it is computed by insertion from the
    right, an element going after exactly those the comparator puts
    strictly ahead of it.  [after x y] is [cmp(x, y) > 0]. *)
Fixpoint insertSorted {A} (after : A -> A -> bool) (x : A) (l : list A)
  : list A :=
  match l with
  | [] => [x]
  | y :: l' => if after x y then y :: insertSorted after x l' else x :: l
  end.

Definition sortWith {A} (after : A -> A -> bool) (l : list A) : list A :=
  fold_right (insertSorted after) [] l.

(** [xs.sort((a, b) => b.score - a.score)]. *)
Definition sortByScore (l : list (Label * jsnum)) : list (Label * jsnum) :=
  sortWith (fun a b => jgt (jsub (snd b) (snd a)) (JFin 0)) l.

(** The body of the 200 response of [POST], given the model. *)
Record Response : Type := mkResponse {
  r_label : option Label;
  r_probabilities : list (Label * jsnum);
  r_trainedOn : nat;
  r_labels : list Label
}.

Definition respond (m : BiasModel) (text : jsstring) : Response :=
  let p := predict m text in
  let probabilities :=
    sortByScore (List.map (fun l => (l, oget (p_probs p) l)) (labels m)) in
  mkResponse (p_label p) probabilities (trainedOn m) (labels m).

(* ===================================================================== *)
(** ** Quantities of the specification *)
(* ===================================================================== *)

Definition docSum (d : PerLabel nat) : nat :=
  at_neutral d + at_slightly d + at_highly d.

(** What the accumulators satisfy after [n] rows. *)
Record acc_inv (n : nat) (a : Acc) : Prop := mkAccInv {
  inv_docs : docSum (a_docCount a) = n;
  inv_vocab : forall t : jsstring,
      t ∈ a_vocab a <->
      exists l : Label, is_Some (pget (a_tokenCounts a) l !! t);
  inv_pos : forall (l : Label) (t : jsstring) (c : nat),
      pget (a_tokenCounts a) l !! t = Some c -> 0 < c
}.

(** The model trained on no row. *)
Definition emptyModel : BiasModel :=
  mkModel fixed_labels ∅ (mkPerLabel 0 0 0) (mkPerLabel ∅ ∅ ∅)
          (mkPerLabel 0 0 0) 0.

(** Two training rows, for examples. *)
Definition sample_rows : list DatasetRow :=
  [mkRow (js "Critics argue the measure may go too far.") slightly_biased;
   mkRow (js "Officials provided details about the incident.") neutral].

(** A score object on which the guard of the softmax fires. *)
Definition sample_scores : scores :=
  [(neutral, JPosInf); (slightly_biased, JFin 0); (highly_biased, JFin 0)].

Section SpecQuantities.
Local Open Scope R_scope.

(** The sum of a list of reals. *)
Definition Rsum (l : list R) : R := fold_right Rplus 0 l.


Definition countOf (m : BiasModel) (l : Label) (t : jsstring) : nat :=
  default 0%nat (pget (tokenCounts m) l !! t).

Definition priorR (m : BiasModel) (l : Label) : R :=
  ln (INR (pget (docCount m) l + 1)
      / INR (docTotal m + List.length (labels m))).

Definition termR (m : BiasModel) (l : Label) (t : jsstring) : R :=
  ln (INR (countOf m l t + 1)
      / INR (pget (totalTokens m) l + vocabSize m)).

Definition scoreR (m : BiasModel) (toks : list jsstring) (l : Label) : R :=
  priorR m l + Rsum (List.map (termR m l) toks).

(** The scores of the three labels, all finite. *)
Definition scores3 (f : Label -> R) : scores :=
  List.map (fun l => (l, JFin (f l))) fixed_labels.

Definition max3 (f : Label -> R) : R :=
  Rmax (Rmax (f neutral) (f slightly_biased)) (f highly_biased).

Definition expSum3 (f : Label -> R) : R :=
  exp (f neutral - max3 f) + exp (f slightly_biased - max3 f)
  + exp (f highly_biased - max3 f).

(** Position in the fixed order of the labels. *)
Definition rank (l : Label) : nat :=
  match l with neutral => 0 | slightly_biased => 1 | highly_biased => 2 end.

(** [best] has the greatest score, and is the first such label. *)
Definition first_argmax (f : Label -> R) (best : Label) : Prop :=
  (forall l, f l <= f best)
  /\ (forall l, (rank l < rank best)%nat -> f l < f best).


End SpecQuantities.

(* ===================================================================== *)
(** ** The CSV reader: [parseCSV] *)
(* ===================================================================== *)

Definition dquote : N := 34.
Definition comma : N := 44.
Definition LFu : N := 10.
Definition CRu : N := 13.

(** The variables of the loop of [parseCSV], the index apart. *)
Record CsvState : Type := mkCsv {
  c_rows : list (list jsstring);
  c_row : list jsstring;
  c_field : jsstring;
  c_inQuotes : bool
}.

(** The loop of [parseCSV] on what is left of the text from index [i]. *)
Fixpoint csv_loop (inQuotes : bool) (rows : list (list jsstring))
  (row : list jsstring) (field : jsstring) (s : jsstring) : CsvState :=
  match s with
  | [] => mkCsv rows row field inQuotes
  | c :: s' =>
      if inQuotes then
        if (c =? dquote)%N then
          match s' with
          | c2 :: s'' =>
              if (c2 =? dquote)%N
              then csv_loop true rows row (field ++ [dquote]) s''
              else csv_loop false rows row field s'
          | [] => csv_loop false rows row field s'
          end
        else csv_loop true rows row (field ++ [c]) s'
      else
        if (c =? dquote)%N then csv_loop true rows row field s'
        else if (c =? comma)%N then csv_loop false rows (row ++ [field]) [] s'
        else if (c =? LFu)%N
             then csv_loop false (rows ++ [row ++ [field]]) [] [] s'
        else if (c =? CRu)%N then csv_loop false rows row field s'
        else csv_loop false rows row (field ++ [c]) s'
  end.

(** What follows the loop: the last field and row are pushed, and a last
    row that is one empty field is popped. *)
Definition csv_finish (st : CsvState) : list (list jsstring) :=
  let rows := c_rows st ++ [c_row st ++ [c_field st]] in
  match List.last rows [] with
  | [ [] ] => removelast rows
  | _ => rows
  end.

Definition parseCSV (s : jsstring) : list (list jsstring) :=
  csv_finish (csv_loop false [] [] [] s).

(** *** Writing a table as CSV text *)

Inductive Eol : Type := LF | CRLF.

Definition eol_text (e : Eol) : jsstring :=
  match e with LF => [LFu] | CRLF => [CRu; LFu] end.

(** A field, written between quotes or bare. *)
Record Cell : Type := mkCell { quoted : bool; content : jsstring }.

Definition escape (f : jsstring) : jsstring :=
  flat_map (fun c => if (c =? dquote)%N then [dquote; dquote] else [c]) f.

Definition is_special (c : N) : bool :=
  (c =? dquote)%N || (c =? comma)%N || (c =? LFu)%N || (c =? CRu)%N.

Definition plain (f : jsstring) : bool := forallb (fun c => negb (is_special c)) f.

Definition render_cell (c : Cell) : jsstring :=
  if quoted c then [dquote] ++ escape (content c) ++ [dquote] else content c.

Definition render_row (cells : list Cell) : jsstring :=
  join [comma] (List.map render_cell cells).

Definition render_csv (t : list (list Cell * Eol)) : jsstring :=
  flat_map (fun r => render_row (fst r) ++ eol_text (snd r)) t.

Definition cell_ok (c : Cell) : bool := quoted c || plain (content c).

Definition row_ok (r : list Cell * Eol) : bool :=
  match fst r with [] => false | _ => forallb cell_ok (fst r) end.

Definition table_ok (t : list (list Cell * Eol)) : bool := forallb row_ok t.

Definition table_of (t : list (list Cell * Eol)) : list (list jsstring) :=
  List.map (fun r => List.map content (fst r)) t.

(** The field of the specification's example, between quotes: it holds a
    comma, and the word quoted between doubled quotes. *)
Definition example_field : jsstring :=
  [dquote] ++ js "a, " ++ [dquote; dquote] ++ js "quoted"
  ++ [dquote; dquote] ++ js " value" ++ [dquote].

Definition example_value : jsstring :=
  js "a, " ++ [dquote] ++ js "quoted" ++ [dquote] ++ js " value".

(** A table with a header, the example field, a field of two lines, an
    empty field and an empty last row. *)
Definition sample_table : list (list Cell * Eol) :=
  [([mkCell false (js "text"); mkCell false (js "label")], CRLF);
   ([mkCell true example_value; mkCell false (js "neutral")], LF);
   ([mkCell true (js "two" ++ [LFu] ++ js "lines, one field");
     mkCell false []], CRLF);
   ([mkCell false []], LF)].

(* ===================================================================== *)
(** ** The model cache: [getModel] *)
(* ===================================================================== *)

(** The event loop runs one callback at a time to its end, so a call of
    [getModel] up to its [return], the [then] callback and the [catch]
    callback are the atomic steps.  A build is one call of [buildModel];
    builds are numbered in the order they are started, and the model a
    build produces is any value of the type [Model] (for reference
    identity: the reference of the object). *)
Section CacheModel.
Variable Model : Type.

Record CacheState : Type := mkCache {
  cachedModel : option Model;
  buildingPromise : option nat;
  started : nat;               (* calls of [buildModel] so far *)
  pending : list nat;          (* builds that have not settled *)
  settled : list (nat * option Model)
                               (* settled builds: the model, or a failure *)
}.

Definition cache0 : CacheState := mkCache None None 0 [] [].

(** What a call of [getModel] hands to its caller. *)
Inductive Outcome : Type :=
| Cached (m : Model)           (* [return cachedModel] *)
| Joined (p : nat).            (* [return buildingPromise], of build [p] *)

Definition getModel (st : CacheState) : CacheState * Outcome :=
  match cachedModel st with
  | Some m => (st, Cached m)
  | None =>
      match buildingPromise st with
      | Some p => (st, Joined p)
      | None =>
          let p := started st in
          (mkCache (cachedModel st) (Some p) (S p) (p :: pending st)
                   (settled st),
           Joined p)
      end
  end.

Definition without (p : nat) (l : list nat) : list nat :=
  List.filter (fun q => negb (q =? p)) l.

(** The [then] callback of build [p], which produced [m]. *)
Definition onFulfilled (p : nat) (m : Model) (st : CacheState) : CacheState :=
  mkCache (Some m) None (started st) (without p (pending st))
          ((p, Some m) :: settled st).

(** The [catch] callback of build [p]. *)
Definition onRejected (p : nat) (st : CacheState) : CacheState :=
  mkCache (cachedModel st) None (started st) (without p (pending st))
          ((p, None) :: settled st).

Inductive Event : Type :=
| Call
| Fulfil (p : nat) (m : Model)
| Reject (p : nat).

Definition is_pending (p : nat) (st : CacheState) : bool :=
  existsb (Nat.eqb p) (pending st).

(** One step of the event loop; a build settles only while it is
    pending.  The outcomes of the calls are collected. *)
Definition cache_step (st : CacheState) (ev : Event)
  : option (CacheState * list Outcome) :=
  match ev with
  | Call => let r := getModel st in Some (fst r, [snd r])
  | Fulfil p m =>
      if is_pending p st then Some (onFulfilled p m st, []) else None
  | Reject p =>
      if is_pending p st then Some (onRejected p st, []) else None
  end.

Fixpoint cache_run (st : CacheState) (evs : list Event)
  : option (CacheState * list Outcome) :=
  match evs with
  | [] => Some (st, [])
  | ev :: evs' =>
      match cache_step st ev with
      | Some (st1, outs1) =>
          match cache_run st1 evs' with
          | Some (st2, outs2) => Some (st2, outs1 ++ outs2)
          | None => None
          end
      | None => None
      end
  end.

(** The marker and the pending builds agree, and nothing is in flight
    once a model is cached. *)
Definition cache_inv (st : CacheState) : Prop :=
  pending st = match buildingPromise st with Some p => [p] | None => [] end
  /\ (forall m, cachedModel st = Some m -> buildingPromise st = None)
  /\ (forall p, buildingPromise st = Some p -> p < started st).

End CacheModel.

Arguments mkCache {Model}.
Arguments cachedModel {Model}.
Arguments buildingPromise {Model}.
Arguments started {Model}.
Arguments pending {Model}.
Arguments settled {Model}.
Arguments cache0 {Model}.
Arguments Cached {Model}.
Arguments Joined {Model}.
Arguments getModel {Model}.
Arguments onFulfilled {Model}.
Arguments onRejected {Model}.
Arguments Call {Model}.
Arguments Fulfil {Model}.
Arguments Reject {Model}.
Arguments is_pending {Model}.
Arguments cache_step {Model}.
Arguments cache_run {Model}.
Arguments cache_inv {Model}.

(* ===================================================================== *)
(** ** The extractive summariser: the summary route *)
(* ===================================================================== *)

Module Summarize.

(** The ellipsis character U+2026. *)
Definition ellipsis : jsstring := [8230%N].

(** [/\s+/g] *)
Definition re_spaces : regex := RPlus (RChar is_space).

(** [/(?<=[.!?])\s+|(?<=;)\s+|(?<=:)\s+/] *)
Definition re_sentence_end : regex :=
  RAlt (RSeq (RBehind (fun c => is_unit 46 c || is_unit 33 c || is_unit 63 c))
             re_spaces)
       (RAlt (RSeq (RBehind (is_unit 59)) re_spaces)
             (RSeq (RBehind (is_unit 58)) re_spaces)).

(** [/[a-z0-9]+/g] *)
Definition re_token : regex := RPlus (RChar is_az09).

Definition digit : regex := RChar is_digit.

(** [/\b(?:\d{1,3}(?:,\d{3})+|\d+)(?:\.\d+)?%?\b/g] *)
Definition re_number : regex :=
  RSeq RWordB
    (RSeq (RAlt (RSeq (RUpTo 2 digit)
                      (RPlus (RSeq (RChar (is_unit 44)) (RRep 3 digit))))
                (RPlus digit))
          (RSeq (ROpt (RSeq (RChar (is_unit 46)) (RPlus digit)))
                (RSeq (ROpt (RChar (is_unit 37))) RWordB))).

(** A character of a pattern with the flag [i]. *)
Definition ci (p c : N) : bool := (upper_unit c =? upper_unit p)%N.

Definition lit (w : String.string) : regex := RLit ci (js w).
Arguments lit w%_string.

(** [Xxx(?:rest)?] *)
Definition month (w rest : String.string) : regex :=
  RSeq (lit w) (ROpt (lit rest)).
Arguments month (w rest)%_string.

(** [/\b(?:\d{4}|Jan(?:uary)?|Feb(?:ruary)?|Mar(?:ch)?|Apr(?:il)?|May
      |Jun(?:e)?|Jul(?:y)?|Aug(?:ust)?|Sep(?:t\.|tember)?|Oct(?:ober)?
      |Nov(?:ember)?|Dec(?:ember)?)\b/gi] *)
Definition re_date : regex :=
  RSeq RWordB
    (RSeq
       (RAlt (RRep 4 digit)
       (RAlt (month "Jan" "uary")
       (RAlt (month "Feb" "ruary")
       (RAlt (month "Mar" "ch")
       (RAlt (month "Apr" "il")
       (RAlt (lit "May")
       (RAlt (month "Jun" "e")
       (RAlt (month "Jul" "y")
       (RAlt (month "Aug" "ust")
       (RAlt (RSeq (lit "Sep") (ROpt (RAlt (lit "t.") (lit "tember"))))
       (RAlt (month "Oct" "ober")
       (RAlt (month "Nov" "ember")
             (month "Dec" "ember")))))))))))))
       RWordB).

(** [function truncate(s, max)] *)
Definition omax (a b : option nat) : option nat :=
  match a, b with
  | Some x, Some y => Some (Nat.max x y)
  | Some x, None => Some x
  | None, _ => b
  end.

Definition truncate (s : jsstring) (max : nat) : jsstring :=
  if List.length s <=? max then s
  else
    let cut := slice0 max s in
    let lastBreak :=
      omax (omax (lastIndexOf 46 cut) (lastIndexOf 44 cut))
           (lastIndexOf 32 cut) in
    trim (match lastBreak with
          | Some b => if 40 <? b then slice0 b cut else cut
          | None => cut
          end)
    ++ ellipsis.

Definition stop : list jsstring :=
  List.map js
    ["the"; "is"; "in"; "and"; "to"; "of"; "a"; "for"; "on"; "that"; "with";
     "as"; "by"; "at"; "from"; "be"; "this"; "it"; "an"; "are"; "was";
     "were"; "or"; "but"; "not"; "has"; "have"; "had"; "their"; "they";
     "his"; "her"; "its"; "you"; "your"; "our"; "them"; "who"; "what";
     "when"; "where"; "why"; "how"]%string.

Definition tokenize (s : jsstring) : list jsstring :=
  List.filter (fun t => (3 <=? List.length t) && negb (str_mem t stop))
              (matchAll re_token (toLowerCase s)).

(** A [Map<string, number>] of counts: its entries in insertion order. *)
Abbreviation counts := (list (jsstring * nat)).

Fixpoint mget (m : counts) (t : jsstring) : option nat :=
  match m with
  | [] => None
  | (k, n) :: m' => if str_eqb k t then Some n else mget m' t
  end.

Fixpoint mset (m : counts) (t : jsstring) (v : nat) : counts :=
  match m with
  | [] => [(t, v)]
  | (k, n) :: m' => if str_eqb k t then (k, v) :: m' else (k, n) :: mset m' t v
  end.

(** [m.set(t, (m.get(t) || 0) + 1)] *)
Definition bump (m : counts) (t : jsstring) : counts :=
  mset m t (default 0 (mget m t) + 1).

Definition topKeywords (s : jsstring) (n : nat) : list jsstring :=
  let tf := fold_left bump (tokenize s) [] in
  List.map fst
    (firstn n (sortWith (fun a b => snd a <? snd b) tf)).

Definition extractNumbersDates (s : jsstring) : list jsstring :=
  let nums := matchAll re_number s in
  let dates := matchAll re_date s in
  uniq (nums ++ dates).

(** [s.replace(/^\w/, c => c.toUpperCase())] *)
Definition capitalize (s : jsstring) : jsstring :=
  match match_here (RSeq RBol (RChar is_word)) None s with
  | Some (m, rest) => List.map upper_unit m ++ rest
  | None => s
  end.

Definition titleFromText (sentences : list jsstring) (s : jsstring)
  : jsstring :=
  let base := match sentences with
              | [] => s
              | s0 :: _ => match s0 with [] => s | _ => s0 end
              end in
  let tokens := firstn 12 (tokenize base) in
  match tokens with
  | [] => truncate base 80
  | _ => capitalize (join (js " ") tokens)
  end.

(** [xs.filter(Boolean)] on strings. *)
Definition nonEmpty (xs : list jsstring) : list jsstring :=
  List.filter (fun x => match x with [] => false | _ => true end) xs.

(** The [while] loop that pads the bullets. *)
Fixpoint pad (fuel : nat) (bullets : list jsstring) (target : nat)
  : list jsstring :=
  match fuel with
  | O => bullets
  | S fuel' =>
      if List.length bullets <? target
      then pad fuel' (bullets ++ [js "- Context: brief update"]) target
      else bullets
  end.

Definition normalize (text : jsstring) : jsstring :=
  trim (replaceAll re_spaces (js " ") text).

Definition sentencesOf (normalized : jsstring) : list jsstring :=
  let sentenceSplit := nonEmpty (split re_sentence_end normalized) in
  match sentenceSplit with [] => [normalized] | _ => sentenceSplit end.

Definition isShort (normalized : jsstring) (sentences : list jsstring)
  : bool :=
  (List.length normalized <? 280) || (List.length sentences <=? 2).

(** The branch [if (isShort)]. *)
Definition shortSummary (normalized : jsstring) (sentences : list jsstring)
  (maxPoints : nat) : jsstring :=
  let keywords := topKeywords normalized 6 in
  let facts := firstn 6 (extractNumbersDates normalized) in
  let topic := titleFromText sentences normalized in
  let bullets :=
    nonEmpty
      [js "- Topic: " ++ truncate topic 90;
       match keywords with
       | [] => []
       | _ => js "- Key terms: " ++ join (js ", ") (firstn 5 keywords)
       end;
       match facts with
       | [] => []
       | _ => js "- Facts: " ++ join (js ", ") facts
       end;
       js "- Summary: " ++ truncate normalized 160] in
  let bullets := pad 3 bullets (Nat.min 3 maxPoints) in
  join [LFu] (firstn maxPoints bullets).

(** [s.replace(/\s+/g, " ").trim().toLowerCase()] *)
Definition canonical (s : jsstring) : jsstring :=
  toLowerCase (trim (replaceAll re_spaces (js " ") s)).

(** The sentences with their index and score. *)
Definition scoreSentences (sentences : list jsstring)
  : list (nat * jsstring * nat) :=
  let freq :=
    fold_left (fun f s => fold_left bump (tokenize s) f) sentences [] in
  List.map
    (fun p =>
       let score :=
         fold_left (fun sc t => sc + default 0 (mget freq t))
                   (tokenize (snd p)) 0 in
       (fst p, snd p, score))
    (combine (seq 0 (List.length sentences)) sentences).

(** The standard path, after the branch for short texts. *)
Definition standardSummary (normalized : jsstring) (sentences : list jsstring)
  (maxPoints : nat) : jsstring :=
  let scored :=
    sortWith (fun a b => snd a <? snd b) (scoreSentences sentences) in
  let targetCount :=
    Nat.min maxPoints (Nat.max 3 ((List.length sentences + 3) / 4)) in
  let chosenIdxs :=
    sortWith (fun a b => b <? a)
             (List.map (fun x => fst (fst x)) (firstn targetCount scored)) in
  let bullets :=
    List.map (fun i => js "- " ++ truncate (nth i sentences []) 180)
             chosenIdxs in
  let result := join [LFu] bullets in
  if str_eqb (canonical result) (canonical normalized)
  then join [LFu] [js "- Summary:"; js "- " ++ truncate normalized 200]
  else result.

Definition extractiveSummary (text : jsstring) (maxPoints : nat) : jsstring :=
  let normalized := normalize text in
  match normalized with
  | [] => js "- No content provided."
  | _ =>
      let sentences := sentencesOf normalized in
      if isShort normalized sentences
      then shortSummary normalized sentences maxPoints
      else standardSummary normalized sentences maxPoints
  end.

(** The text of one period of the echoing input. *)
Definition echo_period : jsstring :=
  js "- topic: topic - key terms: topic, key, terms, summary - summary: ".

(** An input of 226 code units that its own summary repeats. *)
Definition echo_input : jsstring :=
  echo_period ++ echo_period ++ echo_period
  ++ js "- topic: topic - key terms:" ++ ellipsis.

End Summarize.

(* ===================================================================== *)
(** ** White space, for the properties of the summariser *)
(* ===================================================================== *)

(** Every run of white space replaced by one space; [in_run] tells that
    the code unit before was white space. *)
Fixpoint collapse (in_run : bool) (s : jsstring) : jsstring :=
  match s with
  | [] => []
  | c :: s' =>
      if is_space c
      then (if in_run then collapse true s' else 32%N :: collapse true s')
      else c :: collapse false s'
  end.

(** The white space of [s] is single spaces; [after_space] tells that the
    code unit before was one. *)
Fixpoint tidy (after_space : bool) (s : jsstring) : bool :=
  match s with
  | [] => true
  | c :: s' =>
      if is_space c
      then (c =? 32)%N && negb after_space && tidy true s'
      else tidy false s'
  end.

(* ===================================================================== *)
(** ** The rest of the bias route: labels, dataset, seed, handler *)
(* ===================================================================== *)

(** [s.startsWith(k)], used for [includes]. *)
Fixpoint starts_with (k s : jsstring) : bool :=
  match k, s with
  | [], _ => true
  | x :: k', y :: s' => (x =? y)%N && starts_with k' s'
  | _ :: _, [] => false
  end.

(** [s.includes(k)]. *)
Fixpoint includes (s k : jsstring) : bool :=
  starts_with k s
  || match s with
     | [] => false
     | _ :: s' => includes s' k
     end.

Definition normalizeLabel (raw : jsstring) : option Label :=
  let r := toLowerCase (trim raw) in
  if includes r (js "neutral") then Some neutral
  else if includes r (js "slight") then Some slightly_biased
  else if includes r (js "high") || includes r (js "extreme")
          || includes r (js "strong") then Some highly_biased
  else None.

(** The name of a label, as the value of the type [Label] is written. *)
Definition labelName (l : Label) : jsstring :=
  match l with
  | neutral => js "neutral"
  | slightly_biased => js "slightly-biased"
  | highly_biased => js "highly-biased"
  end.

















(** The value of [body.text] in the request: a string, a falsy value (the
    property is absent, or the body is no JSON), or another value. *)
Inductive BodyText : Type :=
| TextString (s : jsstring)
| TextFalsy
| TextOther.

Inductive BiasReply : Type :=
| Bias400            (* Missing text *)
| Bias500            (* Internal error *)
| Bias200 (r : Response).

(** [POST] of the bias route; [model] is what [await getModel()] gives,
    [None] when it throws. *)
Definition POST (body : BodyText) (model : option BiasModel) : BiasReply :=
  match body with
  | TextFalsy => Bias400
  | TextOther => Bias500
  | TextString text =>
      match text, trim text with
      | [], _ | _, [] => Bias400
      | _, _ =>
          match model with
          | Some m => Bias200 (respond m text)
          | None => Bias500
          end
      end
  end.

(* ===================================================================== *)
(** ** Quantities for the further properties *)
(* ===================================================================== *)

(** The row has the label [l]. *)
Definition hasLabel (l : Label) (row : DatasetRow) : bool :=
  label_eqb (label row) l.

(** The row has the label [l] and its text has the token [t]. *)
Definition rowHas (l : Label) (t : jsstring) (row : DatasetRow) : bool :=
  hasLabel l row && str_mem t (tokenize (text row)).

(** The number of rows with the label [l]. *)
Definition docsOf (l : Label) (rows : list DatasetRow) : nat :=
  List.length (List.filter (hasLabel l) rows).

(** The number of rows with the label [l] whose text has the token [t]. *)
Definition docsWith (l : Label) (t : jsstring) (rows : list DatasetRow)
  : nat :=
  List.length (List.filter (rowHas l t) rows).

(** The numbers of distinct tokens of the rows with the label [l], added
    up. *)
Definition presences (l : Label) (rows : list DatasetRow) : nat :=
  fold_right
    (fun row acc => List.length (uniq (tokenize (text row))) + acc) 0
    (List.filter (hasLabel l) rows).

(** The entries of a map of counts, added up. *)
Definition sumCounts (m : gmap jsstring nat) : nat :=
  map_fold (fun _ c acc => c + acc) 0 m.


(** The count of [t] under [l] in the accumulators. *)
Definition accCount (a : Acc) (l : Label) (t : jsstring) : nat :=
  default 0 (pget (a_tokenCounts a) l !! t).

(** The total of a label and the sum of its counts go together. *)
Definition totals_agree (a : Acc) : Prop :=
  forall l, pget (a_totalTokens a) l = sumCounts (pget (a_tokenCounts a) l).

(* ===================================================================== *)
(** ** The handler of the summary route *)
(* ===================================================================== *)

Module SummaryRoute.

(** The body of the request: [req.json()] throws or gives a value that
    cannot be destructured, or gives an object whose property [text] is
    as [BodyText] tells. *)
Inductive Body : Type :=
| BodyBad
| BodyWith (t : BodyText).

(** What [generateText] does. *)
Inductive Provider : Type :=
| ProviderOk (out : jsstring)
| ProviderErr (message : jsstring).

Inductive Reply : Type :=
| Sum400
| Sum500
| Sum200 (summary : jsstring) (providerError : option jsstring).

(** [POST] of the summary route; [provider] is [None] when no key is
    configured. *)
Definition POST (body : Body) (provider : option Provider) : Reply :=
  match body with
  | BodyBad => Sum500
  | BodyWith TextFalsy => Sum400
  | BodyWith TextOther => Sum500
  | BodyWith (TextString text) =>
      match text, trim text with
      | [], _ | _, [] => Sum400
      | _, _ =>
          match provider with
          | Some (ProviderOk out) => Sum200 out None
          | Some (ProviderErr message) =>
              Sum200 (Summarize.extractiveSummary text 5) (Some message)
          | None => Sum200 (Summarize.extractiveSummary text 5) None
          end
      end
  end.

End SummaryRoute.

(** The number of times [t] occurs in a list of tokens. *)
Definition occurrences (t : jsstring) (toks : list jsstring) : nat :=
  List.length (List.filter (str_eqb t) toks).

(* ===================================================================== *)
(** ** Properties of the trainer *)
(* ===================================================================== *)

Section Training.

Lemma pget_pset {A} (r : PerLabel A) (l l' : Label) (v : A) :
  pget (pset r l v) l' = if decide (l = l') then v else pget r l'.
Proof. destruct l, l'; reflexivity. Qed.

Lemma pget_pset_eq {A} (r : PerLabel A) (l : Label) (v : A) :
  pget (pset r l v) l = v.
Proof. destruct l; reflexivity. Qed.

Lemma pget_pset_ne {A} (r : PerLabel A) (l l' : Label) (v : A) :
  l <> l' -> pget (pset r l v) l' = pget r l'.
Proof. destruct l, l'; intros H; try reflexivity; contradiction. Qed.

Lemma docSum_pset (d : PerLabel nat) (l : Label) :
  docSum (pset d l (pget d l + 1)) = S (docSum d).
Proof. destruct l; unfold docSum; simpl; lia. Qed.

Lemma acc_inv_acc0 : acc_inv 0 acc0.
Proof.
  split.
  - reflexivity.
  - intros t. split.
    + intros H. exfalso. revert H. apply not_elem_of_empty.
    + intros [l [c H]]. destruct l; simpl in H; rewrite lookup_empty in H;
        discriminate.
  - intros l t c H. destruct l; simpl in H; rewrite lookup_empty in H;
      discriminate.
Qed.

Lemma count_token_inv (n : nat) (l : Label) (a : Acc) (t : jsstring) :
  acc_inv n a -> acc_inv n (count_token l a t).
Proof.
  intros [Hd Hv Hp]. split; simpl.
  - exact Hd.
  - intros u. rewrite elem_of_union, elem_of_singleton, Hv. split.
    + intros [-> | [l' Hl']].
      * exists l. rewrite pget_pset_eq, lookup_insert_eq. eauto.
      * exists l'. rewrite pget_pset. destruct (decide (l = l')) as [<-|];
          [|exact Hl'].
        rewrite lookup_insert. destruct (decide (t = u)); eauto.
    + intros [l' Hl']. rewrite pget_pset in Hl'.
      destruct (decide (l = l')) as [<-|]; [|right; eauto].
      rewrite lookup_insert in Hl'. destruct (decide (t = u)) as [->|].
      * now left.
      * right. eauto.
  - intros l' u c. rewrite pget_pset.
    destruct (decide (l = l')) as [<-|]; [|apply Hp].
    rewrite lookup_insert. destruct (decide (t = u)).
    + intros [= <-]. lia.
    + apply Hp.
Qed.

Lemma count_tokens_inv (n : nat) (l : Label) (toks : list jsstring) :
  forall a, acc_inv n a -> acc_inv n (fold_left (count_token l) toks a).
Proof.
  induction toks as [|t toks IH]; intros a Ha; simpl.
  - exact Ha.
  - apply IH, count_token_inv, Ha.
Qed.

Lemma train_row_inv (n : nat) (a : Acc) (row : DatasetRow) :
  acc_inv n a -> acc_inv (S n) (train_row a row).
Proof.
  intros [Hd Hv Hp]. unfold train_row. apply count_tokens_inv.
  split; simpl.
  - rewrite docSum_pset. now f_equal.
  - exact Hv.
  - exact Hp.
Qed.

Lemma train_rows_inv (rows : list DatasetRow) :
  forall n a, acc_inv n a ->
              acc_inv (n + List.length rows) (fold_left train_row rows a).
Proof.
  induction rows as [|row rows IH]; intros n a Ha; simpl.
  - now rewrite Nat.add_0_r.
  - replace (n + S (List.length rows)) with (S n + List.length rows) by lia.
    apply IH, train_row_inv, Ha.
Qed.

Lemma trained_inv (rows : list DatasetRow) :
  acc_inv (List.length rows) (fold_left train_row rows acc0).
Proof. apply (train_rows_inv rows 0 acc0 acc_inv_acc0). Qed.

End Training.

(** C8. For every list of training rows the trained model has: the
    document counts of the three labels add up to [trainedOn], which is
    the number of rows; and a token is in the vocabulary exactly when
    some label has a positive presence count for it. *)
Theorem train_invariants (rows : list DatasetRow) :
  let m := trainNaiveBayes rows in
  fold_left (fun acc l => acc + pget (docCount m) l) fixed_labels 0
    = trainedOn m
  /\ trainedOn m = List.length rows
  /\ (forall t : jsstring,
         t ∈ vocab m <->
         exists (l : Label) (c : nat),
           pget (tokenCounts m) l !! t = Some c /\ 0 < c).
Proof.
  intros m. destruct (trained_inv rows) as [Hd Hv Hp].
  split; [|split].
  - subst m. simpl. unfold docSum in Hd. lia.
  - reflexivity.
  - intros t. subst m. simpl. rewrite Hv. split.
    + intros [l [c Hc]]. exists l, c. split; [exact Hc|].
      apply (Hp l t c Hc).
    + intros [l [c [Hc _]]]. exists l. eauto.
Qed.

(* ===================================================================== *)
(** ** Arithmetic of scores *)
(* ===================================================================== *)

Section ScoreArithmetic.
Local Open Scope R_scope.



Lemma jdiv_one (a : jsnum) : jdiv a (JFin 1) = a.
Proof.
  destruct a; simpl; try reflexivity.
  - destruct (Rlt_dec 1 0); [lra | reflexivity].
  - destruct (Req_EM_T 1 0); [lra |]. f_equal. field.
  - destruct (Rlt_dec 1 0); [lra | reflexivity].
Qed.

Lemma jdiv_fin (x y : R) : y <> 0 -> jdiv (JFin x) (JFin y) = JFin (x / y).
Proof. intros H. simpl. destruct (Req_EM_T y 0); [contradiction | reflexivity]. Qed.

Lemma jlog_fin (x : R) : 0 < x -> jlog (JFin x) = JFin (ln x).
Proof.
  intros H. simpl. destruct (Rlt_dec x 0); [lra |].
  destruct (Req_EM_T x 0); [lra | reflexivity].
Qed.

Lemma jgt_fin (x y : R) :
  jgt (JFin x) (JFin y) = if Rlt_dec y x then true else false.
Proof. reflexivity. Qed.

Lemma jgt_neginf (x : R) : jgt (JFin x) JNegInf = true.
Proof. reflexivity. Qed.

Lemma jmax_fin (x y : R) : jmax (JFin x) (JFin y) = JFin (Rmax x y).
Proof.
  unfold jmax, jgt. destruct (Rlt_dec x y) as [H|H]; f_equal.
  - rewrite Rmax_right; lra.
  - rewrite Rmax_left; lra.
Qed.

Lemma truthy_pos (x : R) : 0 < x -> truthy (JFin x) = true.
Proof. intros H. simpl. destruct (Req_EM_T x 0); [lra | reflexivity]. Qed.



Lemma fold_jadd_fin {A} (g : A -> R) (l : list A) :
  forall acc : R,
    fold_left (fun ll t => jadd ll (JFin (g t))) l (JFin acc)
    = JFin (acc + Rsum (List.map g l)).
Proof.
  induction l as [|t l IH]; intros acc; simpl.
  - f_equal. lra.
  - rewrite IH. f_equal. lra.
Qed.

End ScoreArithmetic.

(* ===================================================================== *)
(** ** Distinct query tokens *)
(* ===================================================================== *)

Section Distinct.

Lemma str_eqb_eq (a b : jsstring) : str_eqb a b = true <-> a = b.
Proof.
  revert b. induction a as [|x a IH]; intros [|y b]; simpl;
    try (split; [discriminate | discriminate]); try tauto.
  rewrite andb_true_iff, N.eqb_eq, IH. split.
  - intros [-> ->]. reflexivity.
  - intros [= -> ->]. tauto.
Qed.

Lemma str_mem_elem (a : jsstring) (l : list jsstring) :
  str_mem a l = true <-> a ∈ l.
Proof.
  unfold str_mem. rewrite existsb_exists. split.
  - intros [x [Hx Heq]]. apply str_eqb_eq in Heq. subst x.
    now apply list_elem_of_In.
  - intros H. exists a. split; [now apply list_elem_of_In|].
    now apply str_eqb_eq.
Qed.

Lemma uniq_from_elem (xs : list jsstring) :
  forall seen x, x ∈ uniq_from seen xs <-> x ∈ xs /\ x ∉ seen.
Proof.
  induction xs as [|y xs IH]; intros seen x; simpl.
  - rewrite elem_of_nil. tauto.
  - destruct (str_mem y seen) eqn:E.
    + apply str_mem_elem in E. rewrite IH, elem_of_cons. split.
      * intros [H1 H2]. tauto.
      * intros [[-> | H1] H2]; [contradiction | tauto].
    + assert (Hy : y ∉ seen).
      { intros H. apply str_mem_elem in H. congruence. }
      rewrite !elem_of_cons, IH, elem_of_cons.
      destruct (decide (x = y)) as [-> | Hne]; [tauto|]. tauto.
Qed.

Lemma uniq_from_NoDup (xs : list jsstring) :
  forall seen, NoDup (uniq_from seen xs).
Proof.
  induction xs as [|y xs IH]; intros seen; simpl.
  - constructor.
  - destruct (str_mem y seen); [apply IH|].
    constructor; [|apply IH].
    rewrite uniq_from_elem, elem_of_cons. tauto.
Qed.

Lemma uniq_NoDup (xs : list jsstring) : NoDup (uniq xs).
Proof. apply uniq_from_NoDup. Qed.

Lemma uniq_elem (xs : list jsstring) (x : jsstring) : x ∈ uniq xs <-> x ∈ xs.
Proof.
  unfold uniq. rewrite uniq_from_elem, elem_of_nil. tauto.
Qed.


End Distinct.

(* ===================================================================== *)
(** ** Properties of the predictor *)
(* ===================================================================== *)

Section Predictor.
Local Open Scope R_scope.

Lemma vocabSize_pos (m : BiasModel) : (1 <= vocabSize m)%nat.
Proof. unfold vocabSize. lia. Qed.

Lemma INR_pos (n : nat) : (0 < n)%nat -> 0 < INR n.
Proof. apply lt_0_INR. Qed.

Lemma ratio_pos (a b : nat) : (0 < a)%nat -> (0 < b)%nat -> 0 < INR a / INR b.
Proof.
  intros Ha Hb. apply Rdiv_lt_0_compat; now apply INR_pos.
Qed.

Lemma tokenProb_log (m : BiasModel) (l : Label) (t : jsstring) :
  jlog (tokenProb m (vocabSize m) l t) = JFin (termR m l t).
Proof.
  unfold tokenProb, num, termR, countOf.
  pose proof (vocabSize_pos m) as HV.
  rewrite jdiv_fin.
  - apply jlog_fin, ratio_pos; lia.
  - apply not_0_INR. lia.
Qed.

Lemma logScore_fin (m : BiasModel) (toks : list jsstring) (l : Label) :
  labels m <> [] -> logScore m toks l = JFin (scoreR m toks l).
Proof.
  intros Hne. unfold logScore, scoreR, priorR, num.
  assert (Hlen : (0 < List.length (labels m))%nat).
  { destruct (labels m); [contradiction | simpl; lia]. }
  rewrite jdiv_fin by (apply not_0_INR; lia).
  rewrite jlog_fin by (apply ratio_pos; lia).
  rewrite <- (fold_jadd_fin (termR m l)).
  revert toks. generalize (JFin (ln (INR (pget (docCount m) l + 1)
                  / INR (docTotal m + List.length (labels m))))).
  intros acc toks. revert acc.
  induction toks as [|t toks IH]; intros acc; simpl.
  - reflexivity.
  - rewrite tokenProb_log. apply IH.
Qed.

Lemma logScores_fixed (m : BiasModel) (text : jsstring) :
  labels m = fixed_labels ->
  logScores m text =
    List.map (fun l => (l, JFin (scoreR m (uniq (tokenize text)) l)))
             fixed_labels.
Proof.
  intros Hl. unfold logScores.
  assert (Hne : labels m <> []) by (rewrite Hl; discriminate).
  rewrite Hl. cbn [fold_left List.map fixed_labels].
  rewrite !logScore_fin by exact Hne. reflexivity.
Qed.

Lemma docTotal_fixed (m : BiasModel) :
  labels m = fixed_labels -> docTotal m = docSum (docCount m).
Proof. intros Hl. unfold docTotal, docSum. rewrite Hl. simpl. lia. Qed.

Lemma oget_scores3 (f : Label -> R) (l : Label) :
  oget (scores3 f) l = JFin (f l).
Proof. destruct l; reflexivity. Qed.

Lemma expSum3_pos (f : Label -> R) : 0 < expSum3 f.
Proof.
  unfold expSum3.
  pose proof (exp_pos (f neutral - max3 f)).
  pose proof (exp_pos (f slightly_biased - max3 f)).
  pose proof (exp_pos (f highly_biased - max3 f)). lra.
Qed.

Lemma maxOf_scores3 (f : Label -> R) :
  maxOf (List.map snd (scores3 f)) = JFin (max3 f).
Proof.
  unfold maxOf, scores3, max3. cbn [List.map fixed_labels snd fold_left].
  change (jmax JNegInf (JFin (f neutral))) with (JFin (f neutral)).
  now rewrite !jmax_fin.
Qed.

Lemma expsOf_scores3 (f : Label -> R) :
  expsOf (scores3 f) = scores3 (fun l => exp (f l - max3 f)).
Proof.
  unfold expsOf. rewrite maxOf_scores3. reflexivity.
Qed.

Lemma sumOf_scores3 (g : Label -> R) :
  sumOf (List.map snd (scores3 g))
  = JFin (g neutral + g slightly_biased + g highly_biased).
Proof.
  unfold sumOf, scores3. cbn [List.map fixed_labels snd fold_left jadd].
  f_equal. lra.
Qed.

(** The softmax of three finite scores. *)
Lemma softmax_scores3 (f : Label -> R) :
  softmaxLogScores (scores3 f)
  = scores3 (fun l => exp (f l - max3 f) / expSum3 f).
Proof.
  unfold softmaxLogScores. rewrite expsOf_scores3, sumOf_scores3.
  fold (expSum3 f). unfold jor. rewrite truthy_pos by apply expSum3_pos.
  pose proof (expSum3_pos f) as Hpos.
  unfold scores3. cbn [List.map fixed_labels fst snd].
  rewrite !jdiv_fin by lra. reflexivity.
Qed.




Lemma pickBest_scores3 (f : Label -> R) :
  exists best, pickBest fixed_labels (scores3 f) = Some best
               /\ first_argmax f best.
Proof.
  unfold pickBest, fixed_labels. cbn [fold_left head].
  rewrite !oget_scores3.
  rewrite jgt_neginf. cbn [snd fst]. rewrite jgt_fin.
  destruct (Rlt_dec (f neutral) (f slightly_biased)) as [H1|H1];
    cbn [snd fst]; rewrite jgt_fin.
  - destruct (Rlt_dec (f slightly_biased) (f highly_biased)) as [H2|H2];
      cbn [fst].
    + exists highly_biased. split; [reflexivity|]. split.
      * intros []; lra.
      * intros []; simpl; intros; try lra; lia.
    + exists slightly_biased. split; [reflexivity|]. split.
      * intros []; lra.
      * intros []; simpl; intros; try lra; lia.
  - destruct (Rlt_dec (f neutral) (f highly_biased)) as [H2|H2];
      cbn [fst].
    + exists highly_biased. split; [reflexivity|]. split.
      * intros []; lra.
      * intros []; simpl; intros; try lra; lia.
    + exists neutral. split; [reflexivity|]. split.
      * intros []; lra.
      * intros []; simpl; intros; lia.
Qed.

Lemma insertSorted_perm {A} (after : A -> A -> bool) (x : A) (l : list A) :
  Permutation (insertSorted after x l) (x :: l).
Proof.
  induction l as [|y l IH]; simpl.
  - reflexivity.
  - destruct (after x y).
    + rewrite IH. apply perm_swap.
    + reflexivity.
Qed.

Lemma sortWith_perm {A} (after : A -> A -> bool) (l : list A) :
  Permutation (sortWith after l) l.
Proof.
  induction l as [|x l IH]; simpl.
  - reflexivity.
  - rewrite insertSorted_perm. now constructor.
Qed.


Lemma logScores_scores3 (m : BiasModel) (text : jsstring) :
  labels m = fixed_labels ->
  logScores m text = scores3 (scoreR m (uniq (tokenize text))).
Proof. apply logScores_fixed. Qed.

End Predictor.

(* ===================================================================== *)
(** ** The predictor: main results *)
(* ===================================================================== *)

Section PredictorResults.
Local Open Scope R_scope.

Lemma trained_labels (rows : list DatasetRow) :
  labels (trainNaiveBayes rows) = fixed_labels.
Proof. reflexivity. Qed.

Lemma absent_token_count (rows : list DatasetRow) (l : Label) (t : jsstring) :
  t ∉ vocab (trainNaiveBayes rows) -> countOf (trainNaiveBayes rows) l t = 0%nat.
Proof.
  intros Hnot. unfold countOf.
  destruct (pget (tokenCounts (trainNaiveBayes rows)) l !! t) as [c|] eqn:E;
    [|reflexivity].
  exfalso. apply Hnot.
  destruct (trained_inv rows) as [_ Hv _]. simpl. apply Hv.
  exists l. simpl in E. rewrite E. eauto.
Qed.

(** C1. For every trained model and every query text, the log-score that
    [predict] computes for a label is
    ln((documentCount + 1) / (N + 3)) plus, over the distinct query
    tokens, the sum of ln((presenceCount + 1) / (totalPresence + V)),
    with N the number of documents of all labels and V the larger of 1
    and the size of the vocabulary; a query token that is not in the
    vocabulary is not skipped: its term is ln(1 / (totalPresence + V)). *)
Theorem logScore_formula (rows : list DatasetRow) (query : jsstring)
  (l : Label) :
  let m := trainNaiveBayes rows in
  let toks := uniq (tokenize query) in
  let N := (pget (docCount m) neutral + pget (docCount m) slightly_biased
            + pget (docCount m) highly_biased)%nat in
  let V := Nat.max 1 (size (vocab m)) in
  let term := fun t : jsstring =>
    ln (INR (default 0%nat (pget (tokenCounts m) l !! t) + 1)
        / INR (pget (totalTokens m) l + V)) in
  NoDup toks
  /\ (forall t, t ∈ toks <-> t ∈ tokenize query)
  /\ oget (logScores m query) l
     = JFin (ln (INR (pget (docCount m) l + 1) / INR (N + 3))
             + Rsum (List.map term toks))
  /\ p_probs (predict m query) = softmaxLogScores (logScores m query)
  /\ (forall t, t ∈ toks -> t ∉ vocab m ->
                term t = ln (1 / INR (pget (totalTokens m) l + V))).
Proof.
  intros m toks N V term.
  split; [apply uniq_NoDup|].
  split; [intros t; apply uniq_elem|].
  split; [|split].
  - rewrite (logScores_scores3 m query (trained_labels rows)).
    rewrite oget_scores3. unfold scoreR, priorR.
    rewrite (docTotal_fixed m (trained_labels rows)).
    reflexivity.
  - reflexivity.
  - intros t _ Hnot. unfold term.
    pose proof (absent_token_count rows l t Hnot) as Hc.
    unfold countOf in Hc. fold m in Hc. rewrite Hc. simpl. reflexivity.
Qed.

Lemma logScore_formula_witness :
  (js "zebra") ∈ uniq (tokenize (js "Critics saw a zebra"))
  /\ ((js "zebra") ∉ vocab (trainNaiveBayes sample_rows))
  /\ ln (INR (default 0%nat
                (pget (tokenCounts (trainNaiveBayes sample_rows)) neutral
                 !! js "zebra") + 1)
         / INR (pget (totalTokens (trainNaiveBayes sample_rows)) neutral
                + Nat.max 1 (size (vocab (trainNaiveBayes sample_rows)))))
     = ln (1 / INR (pget (totalTokens (trainNaiveBayes sample_rows)) neutral
                    + Nat.max 1 (size (vocab (trainNaiveBayes sample_rows))))).
Proof.
  assert (Hin : (js "zebra") ∈ uniq (tokenize (js "Critics saw a zebra"))).
  { apply (bool_decide_unpack _). vm_compute. exact I. }
  assert (Hout : (js "zebra") ∉ vocab (trainNaiveBayes sample_rows)).
  { apply (bool_decide_unpack _). vm_compute. exact I. }
  split; [exact Hin|]. split; [exact Hout|].
  exact (proj2 (proj2 (proj2 (proj2
           (logScore_formula sample_rows (js "Critics saw a zebra") neutral))))
           (js "zebra") Hin Hout).
Defined.






(** C7. Training on no row gives the model whose counts, [trainedOn] and
    vocabulary size are all zero; on that model every denominator of
    [predict] is positive (N + 3 = 3 and totalPresence + V = 1), and for
    every query the result is well formed: the first label, with the
    probability 1/3 for each of the three labels. *)
Theorem zero_rows_model (query : jsstring) (l : Label) :
  trainNaiveBayes [] = emptyModel
  /\ size (vocab emptyModel) = 0%nat
  /\ pget (docCount emptyModel) l = 0%nat
  /\ pget (totalTokens emptyModel) l = 0%nat
  /\ (forall t : jsstring, pget (tokenCounts emptyModel) l !! t = None)
  /\ trainedOn emptyModel = 0%nat
  /\ (docTotal emptyModel + List.length (labels emptyModel) = 3)%nat
  /\ (0 < docTotal emptyModel + List.length (labels emptyModel))%nat
  /\ (pget (totalTokens emptyModel) l + vocabSize emptyModel = 1)%nat
  /\ (0 < pget (totalTokens emptyModel) l + vocabSize emptyModel)%nat
  /\ predict emptyModel query
     = mkPrediction (Some neutral) (scores3 (fun _ => 1 / 3)).
Proof.
  split; [reflexivity|].
  split; [apply size_empty|].
  split; [destruct l; reflexivity|].
  split; [destruct l; reflexivity|].
  split; [intros t; destruct l; apply lookup_empty|].
  split; [reflexivity|].
  split; [reflexivity|].
  split; [simpl; lia|].
  assert (Hden : (pget (totalTokens emptyModel) l + vocabSize emptyModel
                  = 1)%nat).
  { unfold vocabSize. simpl vocab. rewrite size_empty.
    destruct l; reflexivity. }
  split; [exact Hden|].
  split; [rewrite Hden; lia|].
  assert (Hl : labels emptyModel = fixed_labels) by reflexivity.
  set (f := scoreR emptyModel (uniq (tokenize query))).
  assert (Hconst : forall l', f l' = f neutral).
  { intros l'. unfold f, scoreR. f_equal.
    - unfold priorR. destruct l'; reflexivity.
    - apply f_equal, map_ext. intros t. unfold termR, countOf.
      destruct l'; simpl; rewrite !lookup_empty; reflexivity. }
  assert (Hmax : max3 f = f neutral).
  { unfold max3. rewrite (Hconst slightly_biased), (Hconst highly_biased).
    unfold Rmax. repeat destruct (Rle_dec _ _); reflexivity. }
  unfold predict. rewrite Hl, (logScores_scores3 _ query Hl). fold f.
  f_equal.
  - destruct (pickBest_scores3 f) as [best [Hb [_ Hlt]]].
    rewrite Hb. f_equal.
    destruct best; [reflexivity| |].
    + specialize (Hlt neutral). simpl in Hlt.
      rewrite (Hconst slightly_biased) in Hlt.
      exfalso. assert (f neutral < f neutral) by (apply Hlt; lia). lra.
    + specialize (Hlt neutral). simpl in Hlt.
      rewrite (Hconst highly_biased) in Hlt.
      exfalso. assert (f neutral < f neutral) by (apply Hlt; lia). lra.
  - rewrite softmax_scores3. unfold scores3, expSum3.
    cbn [List.map fixed_labels].
    rewrite Hmax, (Hconst slightly_biased), (Hconst highly_biased).
    replace (f neutral - f neutral) with 0 by lra. rewrite exp_0.
    repeat f_equal; lra.
Qed.




End PredictorResults.

(* ===================================================================== *)
(** ** The softmax and its guard *)
(* ===================================================================== *)

Section Softmax.
Local Open Scope R_scope.

Lemma label_eqb_eq (a b : Label) : label_eqb a b = true <-> a = b.
Proof. unfold label_eqb. apply bool_decide_eq_true. Qed.

Lemma oset_fresh (o : scores) (l : Label) (v : jsnum) :
  l ∉ List.map fst o -> oset o l v = o ++ [(l, v)].
Proof.
  induction o as [|[l' v'] o IH]; simpl; intros Hn.
  - reflexivity.
  - rewrite not_elem_of_cons in Hn. destruct Hn as [Hne Hn].
    destruct (label_eqb l' l) eqn:E.
    + apply label_eqb_eq in E. congruence.
    + now rewrite IH.
Qed.

Lemma oset_keys_NoDup (o : scores) (l : Label) (v : jsnum) :
  NoDup (List.map fst o) -> NoDup (List.map fst (oset o l v)).
Proof.
  induction o as [|[l' v'] o IH]; simpl; intros Hnd.
  - constructor; [apply not_elem_of_nil | constructor].
  - destruct (label_eqb l' l) eqn:E; simpl; [exact Hnd|].
    apply NoDup_cons in Hnd. destruct Hnd as [Hn Hnd].
    apply NoDup_cons. split; [|now apply IH].
    intros Hin. apply Hn. clear IH Hn Hnd.
    induction o as [|[l2 v2] o IH]; simpl in *.
    + apply list_elem_of_singleton in Hin. subst l'.
      unfold label_eqb in E. rewrite bool_decide_eq_false in E.
      now contradiction E.
    + destruct (label_eqb l2 l); simpl in Hin; [exact Hin|].
      rewrite elem_of_cons in Hin. rewrite elem_of_cons.
      destruct Hin as [->|Hin]; [now left | right; now apply IH].
Qed.

Lemma fold_oset_NoDup (es : scores) :
  forall o, NoDup (List.map fst o) ->
            NoDup (List.map fst
                     (fold_left (fun o e => oset o (fst e) (snd e)) es o)).
Proof.
  induction es as [|e es IH]; intros o Ho; simpl.
  - exact Ho.
  - apply IH, oset_keys_NoDup, Ho.
Qed.

Lemma fromEntries_keys_NoDup (es : scores) :
  NoDup (List.map fst (fromEntries es)).
Proof. apply fold_oset_NoDup. constructor. Qed.

Lemma fold_oset_distinct (es : scores) :
  forall o, NoDup (List.map fst (o ++ es)) ->
            fold_left (fun o e => oset o (fst e) (snd e)) es o = o ++ es.
Proof.
  induction es as [|[l v] es IH]; intros o Hnd; simpl.
  - now rewrite app_nil_r.
  - rewrite oset_fresh.
    + rewrite IH; rewrite <- app_assoc; [reflexivity | exact Hnd].
    + rewrite map_app in Hnd. apply NoDup_app in Hnd.
      destruct Hnd as [_ [Hdisj _]]. intros Hin.
      apply (Hdisj l Hin). simpl. apply elem_of_cons. now left.
Qed.

(** An object with distinct keys is rebuilt as it is. *)
Lemma fromEntries_distinct (es : scores) :
  NoDup (List.map fst es) -> fromEntries es = es.
Proof. intros H. apply (fold_oset_distinct es []). exact H. Qed.

Lemma map_div_one (es : scores) :
  List.map (fun e => (fst e, jdiv (snd e) (JFin 1))) es = es.
Proof.
  induction es as [|[l v] es IH]; simpl.
  - reflexivity.
  - now rewrite jdiv_one, IH.
Qed.

(** When the guard [sum || 1] fires, the exponentials are returned as
    they are. *)
Lemma softmax_falsy_sum (sc : scores) :
  truthy (sumOf (List.map snd (expsOf sc))) = false ->
  softmaxLogScores sc = expsOf sc.
Proof.
  intros Hf. unfold softmaxLogScores, jor. rewrite Hf.
  rewrite map_div_one. apply fromEntries_distinct.
  unfold expsOf. apply fromEntries_keys_NoDup.
Qed.













Lemma jexp_sub_nan (v : jsnum) : jexp (jsub v JNaN) = JNaN.
Proof. destruct v; reflexivity. Qed.




End Softmax.


(** A score object of the three labels on which the guard fires: the sum
    of the exponentials is NaN, and what is returned is not uniform. *)
Example softmax_nan_sum :
  sumOf (List.map snd (expsOf sample_scores)) = JNaN
  /\ softmaxLogScores sample_scores
     = [(neutral, JNaN); (slightly_biased, JFin 0); (highly_biased, JFin 0)].
Proof.
  split; [reflexivity|].
  rewrite softmax_falsy_sum; reflexivity.
Qed.



(* ===================================================================== *)
(** ** Properties of the CSV reader *)
(* ===================================================================== *)

Section Csv.

Lemma csv_plain (p : jsstring) :
  plain p = true ->
  forall rows row field rest,
    csv_loop false rows row field (p ++ rest)
    = csv_loop false rows row (field ++ p) rest.
Proof.
  induction p as [|c p IH]; intros Hp rows row field rest.
  - now rewrite app_nil_r.
  - simpl in Hp. apply andb_true_iff in Hp. destruct Hp as [Hc Hp].
    unfold is_special in Hc. rewrite !negb_orb, !andb_true_iff in Hc.
    destruct Hc as [[[H1 H2] H3] H4].
    apply negb_true_iff in H1, H2, H3, H4.
    simpl. rewrite H1, H2, H3, H4. rewrite (IH Hp).
    now rewrite <- app_assoc.
Qed.

Lemma csv_quoted_body (f : jsstring) :
  forall rows row field rest,
    head rest <> Some dquote ->
    csv_loop true rows row field (escape f ++ dquote :: rest)
    = csv_loop false rows row (field ++ f) rest.
Proof.
  induction f as [|c f IH]; intros rows row field rest Hrest.
  - simpl. rewrite app_nil_r. destruct rest as [|c2 rest]; [reflexivity|].
    destruct (N.eqb_spec c2 dquote) as [->|]; [now contradiction Hrest|].
    reflexivity.
  - unfold escape. simpl. fold (escape f).
    destruct (N.eqb_spec c dquote) as [->|Hne].
    + simpl. rewrite (IH _ _ _ _ Hrest). now rewrite <- app_assoc.
    + simpl. apply N.eqb_neq in Hne. rewrite Hne.
      rewrite (IH _ _ _ _ Hrest). now rewrite <- app_assoc.
Qed.

Lemma csv_cell (c : Cell) :
  cell_ok c = true ->
  forall rows row rest,
    head rest <> Some dquote ->
    csv_loop false rows row [] (render_cell c ++ rest)
    = csv_loop false rows row (content c) rest.
Proof.
  intros Hok rows row rest Hrest. unfold render_cell, cell_ok in *.
  destruct (quoted c); simpl in *.
  - rewrite <- app_assoc. simpl. now rewrite csv_quoted_body.
  - now rewrite csv_plain.
Qed.

Lemma csv_eol (e : Eol) rows row field rest :
  csv_loop false rows row field (eol_text e ++ rest)
  = csv_loop false (rows ++ [row ++ [field]]) [] [] rest.
Proof. destruct e; reflexivity. Qed.

Lemma head_eol (e : Eol) (rest : jsstring) :
  head (eol_text e ++ rest) <> Some dquote.
Proof. destruct e; discriminate. Qed.

Lemma csv_row (cells : list Cell) :
  cells <> [] ->
  forallb cell_ok cells = true ->
  forall rows row e rest,
    csv_loop false rows row [] (render_row cells ++ eol_text e ++ rest)
    = csv_loop false (rows ++ [row ++ List.map content cells]) [] [] rest.
Proof.
  induction cells as [|c cells IH]; intros Hne Hok rows row e rest.
  - contradiction.
  - simpl in Hok. apply andb_true_iff in Hok. destruct Hok as [Hc Hok].
    destruct cells as [|c2 cells].
    + unfold render_row. simpl join.
      rewrite (csv_cell c Hc) by apply head_eol.
      now rewrite csv_eol.
    + unfold render_row. change (List.map render_cell (c :: c2 :: cells))
        with (render_cell c :: List.map render_cell (c2 :: cells)).
      change (join [comma] (render_cell c :: List.map render_cell (c2 :: cells)))
        with (render_cell c ++ [comma] ++ render_row (c2 :: cells)).
      rewrite <- !app_assoc. rewrite (csv_cell c Hc) by discriminate.
      simpl app at 1.
      change (csv_loop false rows row (content c)
                (comma :: render_row (c2 :: cells) ++ eol_text e ++ rest))
        with (csv_loop false rows (row ++ [content c]) []
                (render_row (c2 :: cells) ++ eol_text e ++ rest)).
      rewrite IH by (try discriminate; exact Hok).
      now rewrite <- app_assoc.
Qed.

Lemma csv_table (t : list (list Cell * Eol)) :
  table_ok t = true ->
  forall rows,
    csv_loop false rows [] [] (render_csv t)
    = mkCsv (rows ++ table_of t) [] [] false.
Proof.
  induction t as [|[cells e] t IH]; intros Hok rows.
  - simpl. now rewrite app_nil_r.
  - simpl in Hok. apply andb_true_iff in Hok. destruct Hok as [Hr Hok].
    unfold row_ok in Hr. simpl in Hr.
    assert (Hne : cells <> []) by (destruct cells; [discriminate | discriminate]).
    assert (Hcells : forallb cell_ok cells = true) by (destruct cells; [discriminate | exact Hr]).
    simpl render_csv. rewrite <- app_assoc.
    rewrite (csv_row cells Hne Hcells). rewrite (IH Hok).
    simpl. now rewrite <- app_assoc.
Qed.

Lemma last_snoc {A} (l : list A) (x d : A) : List.last (l ++ [x]) d = x.
Proof.
  induction l as [|y l IH]; [reflexivity|].
  simpl. destruct (l ++ [x]) eqn:E; [|exact IH].
  destruct l; discriminate.
Qed.

Lemma removelast_snoc {A} (l : list A) (x : A) : removelast (l ++ [x]) = l.
Proof. apply removelast_last. Qed.

End Csv.

(** C6. The quoted field of the example, with its comma and its doubled
    quotes, is read as the one field [example_value], the doubled quotes
    read as single ones.  More generally, a table written as CSV text
    (every row with at least one field, a field either bare without
    quote, comma, CR or LF, or between quotes with its quotes doubled and
    any content, commas and line breaks included; every row ended by LF
    or by CR LF, the last one too) is read back as that table: both line
    endings end a row, and the empty row after the final line ending is
    dropped. *)
Theorem parseCSV_reads_back (t : list (list Cell * Eol))
  (Hok : table_ok t = true) :
  parseCSV example_field = [[example_value]]
  /\ parseCSV (example_field ++ [LFu]) = [[example_value]]
  /\ parseCSV (example_field ++ [CRu; LFu]) = [[example_value]]
  /\ parseCSV (render_csv t) = table_of t.
Proof.
  split; [reflexivity|]. split; [reflexivity|]. split; [reflexivity|].
  unfold parseCSV. rewrite (csv_table t Hok). unfold csv_finish. simpl.
  rewrite last_snoc. apply removelast_last.
Qed.

Lemma parseCSV_reads_back_witness :
  parseCSV example_field = [[example_value]]
  /\ parseCSV (example_field ++ [LFu]) = [[example_value]]
  /\ parseCSV (example_field ++ [CRu; LFu]) = [[example_value]]
  /\ parseCSV (render_csv sample_table) = table_of sample_table.
Proof.
  apply (parseCSV_reads_back sample_table). reflexivity.
Defined.

(* ===================================================================== *)
(** ** Properties of the model cache *)
(* ===================================================================== *)

Section Cache.
Context {Model : Type}.
Implicit Types (st : CacheState Model) (evs : list (Event Model)).

Lemma cache_inv_cache0 : cache_inv (@cache0 Model).
Proof.
  repeat split; simpl; intros; discriminate.
Qed.

Lemma is_pending_marked st (p : nat) :
  cache_inv st -> is_pending p st = true -> buildingPromise st = Some p.
Proof.
  intros [Hp _] H. unfold is_pending in H. rewrite Hp in H.
  destruct (buildingPromise st) as [q|]; simpl in H; [|discriminate].
  rewrite orb_false_r in H. apply Nat.eqb_eq in H. now subst.
Qed.

Lemma without_marked st (p : nat) :
  cache_inv st -> buildingPromise st = Some p -> without p (pending st) = [].
Proof.
  intros [Hp _] H. rewrite Hp, H. unfold without. simpl.
  now rewrite Nat.eqb_refl.
Qed.

Lemma getModel_inv st : cache_inv st -> cache_inv (fst (getModel st)).
Proof.
  intros Hinv. unfold getModel.
  destruct (cachedModel st) as [m|] eqn:Hc; [exact Hinv|].
  destruct (buildingPromise st) as [p|] eqn:Hb; [exact Hinv|].
  destruct Hinv as [Hp _]. rewrite Hb in Hp.
  repeat split; simpl.
  - now rewrite Hp.
  - intros m Hm. congruence.
  - intros p [= <-]. lia.
Qed.

Lemma cache_step_inv st (ev : Event Model) st' outs :
  cache_inv st -> cache_step st ev = Some (st', outs) -> cache_inv st'.
Proof.
  intros Hinv Hstep. destruct ev as [|p m|p]; simpl in Hstep.
  - injection Hstep as <- _. now apply getModel_inv.
  - destruct (is_pending p st) eqn:E; [|discriminate].
    injection Hstep as <- _.
    pose proof (without_marked st p Hinv (is_pending_marked st p Hinv E)) as Hw.
    split; [exact Hw|]. split; simpl; [reflexivity | discriminate].
  - destruct (is_pending p st) eqn:E; [|discriminate].
    injection Hstep as <- _.
    pose proof (is_pending_marked st p Hinv E) as Hb.
    pose proof (without_marked st p Hinv Hb) as Hw.
    split; [exact Hw|]. split; simpl; [reflexivity | discriminate].
Qed.

Lemma cache_run_inv evs :
  forall st st' outs,
    cache_inv st -> cache_run st evs = Some (st', outs) -> cache_inv st'.
Proof.
  induction evs as [|ev evs IH]; intros st st' outs Hinv Hrun; simpl in Hrun.
  - injection Hrun as <- _. exact Hinv.
  - destruct (cache_step st ev) as [[st1 outs1]|] eqn:Hs; [|discriminate].
    destruct (cache_run st1 evs) as [[st2 outs2]|] eqn:Hr; [|discriminate].
    injection Hrun as <- _.
    eapply IH; [|exact Hr]. eapply cache_step_inv; eauto.
Qed.

(** Once a model is cached, every step is a call that returns it and
    changes nothing. *)
Lemma cached_step st (m : Model) (ev : Event Model) st' outs :
  cache_inv st -> cachedModel st = Some m ->
  cache_step st ev = Some (st', outs) ->
  st' = st /\ outs = [Cached m].
Proof.
  intros Hinv Hc Hstep. destruct ev as [|p m'|p]; simpl in Hstep.
  - unfold getModel in Hstep. rewrite Hc in Hstep. simpl in Hstep.
    injection Hstep as <- <-. now split.
  - destruct (is_pending p st) eqn:E; [|discriminate].
    pose proof (is_pending_marked st p Hinv E) as Hb.
    destruct Hinv as [_ [Hnone _]]. rewrite (Hnone m Hc) in Hb. discriminate.
  - destruct (is_pending p st) eqn:E; [|discriminate].
    pose proof (is_pending_marked st p Hinv E) as Hb.
    destruct Hinv as [_ [Hnone _]]. rewrite (Hnone m Hc) in Hb. discriminate.
Qed.

Lemma cached_run evs :
  forall st (m : Model) st' outs,
    cache_inv st -> cachedModel st = Some m ->
    cache_run st evs = Some (st', outs) ->
    st' = st /\ Forall (fun o => o = Cached m) outs.
Proof.
  induction evs as [|ev evs IH]; intros st m st' outs Hinv Hc Hrun;
    simpl in Hrun.
  - injection Hrun as <- <-. split; [reflexivity | constructor].
  - destruct (cache_step st ev) as [[st1 outs1]|] eqn:Hs; [|discriminate].
    destruct (cache_run st1 evs) as [[st2 outs2]|] eqn:Hr; [|discriminate].
    injection Hrun as <- <-.
    destruct (cached_step st m ev st1 outs1 Hinv Hc Hs) as [-> ->].
    destruct (IH st m st2 outs2 Hinv Hc Hr) as [-> Hall].
    split; [reflexivity|]. simpl. constructor; [reflexivity | exact Hall].
Qed.

(** Calls that arrive before any build has settled: the first starts
    build 0, the others join it. *)
Lemma first_calls (n : nat) :
  cache_run (@cache0 Model) (repeat Call (S n))
  = Some (mkCache None (Some 0) 1 [0] [], repeat (Joined 0) (S n)).
Proof.
  change (cache_run (@cache0 Model) (repeat Call (S n)))
    with (match cache_run (mkCache (Model:=Model) None (Some 0) 1 [0] [])
                  (repeat Call n) with
          | Some (st2, outs2) => Some (st2, [Joined 0] ++ outs2)
          | None => None
          end).
  assert (H : cache_run (mkCache (Model:=Model) None (Some 0) 1 [0] [])
                (repeat Call n)
              = Some (mkCache None (Some 0) 1 [0] [], repeat (Joined 0) n)).
  { induction n as [|n IH]; [reflexivity|].
    simpl. simpl in IH. rewrite IH. reflexivity. }
  rewrite H. reflexivity.
Qed.

End Cache.

(** C9. In every state the cache reaches from the start, by calls of
    [getModel] and settlements of builds in any order:
    at most one build is in flight, and it is the one the marker names;
    while it is in flight a call returns that same build and starts
    none; once a build has produced a model, every later call returns
    that very model, no build is started any more and the state never
    changes; when a build fails the marker is cleared, nothing is
    cached, and the next call starts a new build.  Calls that arrive
    before any settlement start exactly one build and all receive it. *)
Theorem getModel_single_flight {Model : Type} (evs : list (Event Model))
  (st : CacheState Model) (outs : list (Outcome Model))
  (Hrun : cache_run cache0 evs = Some (st, outs)) :
  (pending st = match buildingPromise st with Some p => [p] | None => [] end)
  /\ (forall p, buildingPromise st = Some p ->
        cachedModel st = None /\ getModel st = (st, Joined p))
  /\ (forall m, cachedModel st = Some m ->
        buildingPromise st = None
        /\ getModel st = (st, Cached m)
        /\ forall evs' st' outs',
             cache_run st evs' = Some (st', outs') ->
             st' = st /\ Forall (fun o => o = Cached m) outs')
  /\ (forall p m st' o,
        cache_step st (Fulfil p m) = Some (st', o) ->
        buildingPromise st = Some p
        /\ cachedModel st' = Some m /\ buildingPromise st' = None
        /\ pending st' = [] /\ started st' = started st
        /\ settled st' = (p, Some m) :: settled st)
  /\ (forall p st' o,
        cache_step st (Reject p) = Some (st', o) ->
        buildingPromise st = Some p
        /\ cachedModel st' = None /\ buildingPromise st' = None
        /\ pending st' = []
        /\ exists st2, getModel st' = (st2, Joined (started st))
                       /\ started st2 = S (started st)
                       /\ buildingPromise st2 = Some (started st))
  /\ (forall n,
        cache_run (@cache0 Model) (repeat Call (S n))
        = Some (mkCache None (Some 0) 1 [0] [], repeat (Joined 0) (S n))).
Proof.
  pose proof (cache_run_inv evs cache0 st outs cache_inv_cache0 Hrun) as Hinv.
  split; [apply Hinv|].
  split.
  { intros p Hb. assert (Hc : cachedModel st = None).
    { destruct (cachedModel st) as [m|] eqn:Hc; [|reflexivity].
      destruct Hinv as [_ [Hnone _]]. rewrite (Hnone m Hc) in Hb.
      discriminate. }
    split; [exact Hc|]. unfold getModel. now rewrite Hc, Hb. }
  split.
  { intros m Hc. split; [apply Hinv with m; exact Hc|].
    split; [unfold getModel; now rewrite Hc|].
    intros evs' st' outs' Hr. eapply cached_run; eauto. }
  split.
  { intros p m st' o Hs. simpl in Hs.
    destruct (is_pending p st) eqn:E; [|discriminate].
    injection Hs as <- _.
    pose proof (is_pending_marked st p Hinv E) as Hb.
    split; [exact Hb|]. simpl.
    rewrite (without_marked st p Hinv Hb). repeat split. }
  split.
  { intros p st' o Hs. simpl in Hs.
    destruct (is_pending p st) eqn:E; [|discriminate].
    injection Hs as <- _.
    pose proof (is_pending_marked st p Hinv E) as Hb.
    assert (Hc : cachedModel st = None).
    { destruct (cachedModel st) as [m|] eqn:Hc; [|reflexivity].
      destruct Hinv as [_ [Hnone _]]. rewrite (Hnone m Hc) in Hb.
      discriminate. }
    split; [exact Hb|]. simpl.
    rewrite (without_marked st p Hinv Hb).
    split; [exact Hc|]. split; [reflexivity|]. split; [reflexivity|].
    unfold getModel. simpl. rewrite Hc. eexists. split; [reflexivity|].
    split; reflexivity. }
  intros n. apply first_calls.
Qed.

Lemma getModel_single_flight_witness :
  exists st outs,
    cache_run cache0 [Call; Call; Reject 0; Call; Call; Fulfil 1 emptyModel;
                      Call]
    = Some (st, outs)
    /\ outs = [Joined 0; Joined 0; Joined 1; Joined 1; Cached emptyModel]
    /\ started st = 2
    /\ cachedModel st = Some emptyModel
    /\ getModel st = (st, Cached emptyModel).
Proof.
  eexists. eexists. split; [reflexivity|].
  split; [reflexivity|]. split; [reflexivity|]. split; [reflexivity|].
  refine (proj1 (proj2 (proj1 (proj2 (proj2
    (getModel_single_flight
       [Call; Call; Reject 0; Call; Call; Fulfil 1 emptyModel; Call]
       _ _ eq_refl))) emptyModel eq_refl))).
Defined.

(* ===================================================================== *)
(** ** Properties of the extractive summariser *)
(* ===================================================================== *)

Section Summary.
Import Summarize.

Lemma join_nonempty (sep x : jsstring) (xs : list jsstring) :
  x <> [] -> join sep (x :: xs) <> [].
Proof.
  intros Hx. destruct xs as [|y xs]; simpl; [exact Hx|].
  destruct x; [contradiction | discriminate].
Qed.

Lemma pad_head (fuel : nat) (x : jsstring) (xs : list jsstring) (n : nat) :
  exists ys, pad fuel (x :: xs) n = x :: ys.
Proof.
  revert xs. induction fuel as [|fuel IH]; intros xs; simpl; [eauto|].
  destruct (_ <? n); [|eauto].
  apply (IH (xs ++ [js "- Context: brief update"])).
Qed.

(** On the path for short texts the summary is not empty, as soon as one
    bullet at least is asked for. *)
Lemma shortSummary_nonempty (normalized : jsstring)
  (sentences : list jsstring) (maxPoints : nat) :
  0 < maxPoints -> shortSummary normalized sentences maxPoints <> [].
Proof.
  intros Hpos. unfold shortSummary.
  set (rest := [_; _; _]).
  change (nonEmpty (?x :: rest)) with (x :: nonEmpty rest).
  destruct (pad_head 3 (js "- Topic: " ++ truncate
              (titleFromText sentences normalized) 90)
              (nonEmpty rest) (Nat.min 3 maxPoints)) as [ys ->].
  destruct maxPoints as [|k]; [lia|]. simpl firstn.
  apply join_nonempty. discriminate.
Qed.

Lemma sortWith_nonempty {A} (after : A -> A -> bool) (l : list A) :
  l <> [] -> sortWith after l <> [].
Proof.
  intros Hl Hs. pose proof (Permutation_length (sortWith_perm after l)) as H.
  rewrite Hs in H. destruct l; [contradiction | discriminate].
Qed.

Lemma sentencesOf_nonempty (normalized : jsstring) :
  sentencesOf normalized <> [].
Proof.
  unfold sentencesOf.
  destruct (nonEmpty (split re_sentence_end normalized)); discriminate.
Qed.

Lemma scoreSentences_length (sentences : list jsstring) :
  List.length (scoreSentences sentences) = List.length sentences.
Proof.
  unfold scoreSentences.
  rewrite length_map, length_combine, length_seq. lia.
Qed.

(** On the standard path the summary is not empty either. *)
Lemma standardSummary_nonempty (normalized : jsstring)
  (sentences : list jsstring) (maxPoints : nat) :
  0 < maxPoints -> sentences <> [] ->
  standardSummary normalized sentences maxPoints <> [].
Proof.
  intros Hpos Hne. unfold standardSummary.
  match goal with |- context [if ?c then _ else _] => destruct c end.
  - discriminate.
  - set (scored := sortWith _ (scoreSentences sentences)).
    set (target := Nat.min maxPoints _).
    assert (Hsc : scored <> []).
    { apply sortWith_nonempty. intros H.
      pose proof (scoreSentences_length sentences) as Hl. rewrite H in Hl.
      destruct sentences; [contradiction | discriminate]. }
    assert (Ht : 0 < target) by (unfold target; lia).
    destruct scored as [|x scored']; [contradiction|].
    destruct target as [|k]; [lia|]. cbn [firstn List.map].
    set (idxs := sortWith _ _).
    assert (Hid : idxs <> []) by (apply sortWith_nonempty; discriminate).
    destruct idxs as [|i idxs']; [contradiction|]. cbn [List.map].
    apply join_nonempty. discriminate.
Qed.

(** Whatever the text, the summary is not empty when at least one bullet
    is asked for. *)
Lemma extractiveSummary_nonempty (text : jsstring) (maxPoints : nat) :
  0 < maxPoints -> extractiveSummary text maxPoints <> [].
Proof.
  intros Hpos. unfold extractiveSummary.
  destruct (normalize text) as [|c normalized] eqn:E; [discriminate|].
  destruct (isShort _ _).
  - now apply shortSummary_nonempty.
  - apply standardSummary_nonempty; [exact Hpos | apply sentencesOf_nonempty].
Qed.

(** *** The standard path keeps the summary apart from the input *)

Lemma dropWhile_length {A} (p : A -> bool) (l : list A) :
  List.length (dropWhile p l) <= List.length l.
Proof.
  induction l as [|x l IH]; simpl; [lia|].
  destruct (p x); simpl; lia.
Qed.

Lemma dropWhile_split {A} (p : A -> bool) (l : list A) :
  exists pre, l = pre ++ dropWhile p l.
Proof.
  induction l as [|x l [pre IH]]; simpl.
  - now exists [].
  - destruct (p x).
    + exists (x :: pre). simpl. now f_equal.
    + now exists [].
Qed.

Lemma dropWhile_head {A} (p : A -> bool) (l : list A) (x : A) :
  head (dropWhile p l) = Some x -> p x = false.
Proof.
  induction l as [|y l IH]; simpl; [discriminate|].
  destruct (p y) eqn:E; [exact IH|]. simpl. now intros [= <-].
Qed.

Lemma dropWhile_id {A} (p : A -> bool) (l : list A) :
  (forall x, head l = Some x -> p x = false) -> dropWhile p l = l.
Proof.
  destruct l as [|y l]; simpl; [reflexivity|].
  intros H. now rewrite (H y eq_refl).
Qed.

Lemma star_class (p : N -> bool)
  (body : option N -> jsstring ->
          (option N -> jsstring -> option jsstring) -> option jsstring)
  (Hbody : forall prev s k, body prev s k = rmatch (RChar p) prev s k)
  (n : nat) :
  forall prev s,
    List.length s < n ->
    star_loop body (fun _ rest => Some rest) n prev s
    = Some (dropWhile p s).
Proof.
  induction n as [|n IH]; intros prev s Hlen; [lia|].
  cbn [star_loop]. rewrite Hbody.
  destruct s as [|c s]; [reflexivity|]. simpl in Hlen.
  cbn [rmatch dropWhile]. destruct (p c); [|reflexivity].
  assert (Hlt : (List.length s <? List.length (c :: s)) = true).
  { apply Nat.ltb_lt. simpl. lia. }
  rewrite Hlt, IH by lia. reflexivity.
Qed.

Lemma match_here_spaces (prev : option N) (s : jsstring) :
  match_here re_spaces prev s
  = match s with
    | c :: s' =>
        if is_space c
        then Some (c :: firstn (List.length s'
                                - List.length (dropWhile is_space s')) s',
                   dropWhile is_space s')
        else None
    | [] => None
    end.
Proof.
  unfold match_here, re_spaces, RPlus.
  destruct s as [|c s']; [reflexivity|].
  cbn [rmatch]. destruct (is_space c); [|reflexivity].
  rewrite (star_class is_space) by (try reflexivity; lia).
  pose proof (dropWhile_length is_space s') as Hle.
  cbn [List.length]. rewrite Nat.sub_succ_l by exact Hle. reflexivity.
Qed.

Lemma collapse_true_drop (s : jsstring) :
  collapse true s = collapse false (dropWhile is_space s).
Proof.
  induction s as [|c s IH]; simpl; [reflexivity|].
  destruct (is_space c) eqn:E; [exact IH|]. simpl. now rewrite E.
Qed.

Lemma scan_spaces (fuel : nat) :
  forall prev s,
    List.length s < fuel ->
    flat_map (fun p => match p with Hit _ => js " " | Gap c => [c] end)
             (scan fuel re_spaces prev s)
    = collapse false s.
Proof.
  induction fuel as [|fuel IH]; intros prev s Hlen; [lia|].
  cbn [scan]. rewrite match_here_spaces.
  destruct s as [|c s']; [reflexivity|]. simpl in Hlen.
  cbn [collapse]. destruct (is_space c).
  - cbn [flat_map]. rewrite IH.
    + now rewrite collapse_true_drop.
    + pose proof (dropWhile_length is_space s'). lia.
  - cbn [flat_map]. rewrite IH by lia. reflexivity.
Qed.

Lemma replaceAll_spaces (s : jsstring) :
  replaceAll re_spaces (js " ") s = collapse false s.
Proof. unfold replaceAll, pieces. apply scan_spaces. lia. Qed.

Lemma tidy_collapse (s : jsstring) :
  forall b, tidy b (collapse b s) = true.
Proof.
  induction s as [|c s IH]; intros b; simpl; [reflexivity|].
  destruct (is_space c) eqn:E.
  - destruct b; [apply IH|]. simpl. now rewrite IH.
  - simpl. rewrite E. apply IH.
Qed.

Lemma collapse_tidy (s : jsstring) :
  forall b, tidy b s = true -> collapse b s = s.
Proof.
  induction s as [|c s IH]; intros b H; simpl in *; [reflexivity|].
  destruct (is_space c).
  - apply andb_true_iff in H. destruct H as [H Ht].
    apply andb_true_iff in H. destruct H as [Hc Hb].
    apply N.eqb_eq in Hc. subst c. destruct b; [discriminate|].
    now rewrite (IH true Ht).
  - now rewrite (IH false H).
Qed.

Lemma tidy_weaken (s : jsstring) (b : bool) :
  tidy b s = true -> tidy false s = true.
Proof.
  destruct s as [|c s]; simpl; [reflexivity|].
  destruct (is_space c); [|tauto].
  rewrite !andb_true_iff. intros [[H1 _] H2]. now rewrite H1, H2.
Qed.

Lemma tidy_suffix (x y : jsstring) :
  forall b, tidy b (x ++ y) = true -> tidy false y = true.
Proof.
  induction x as [|c x IH]; intros b H; simpl in H.
  - now apply tidy_weaken in H.
  - destruct (is_space c).
    + apply andb_true_iff in H. destruct H as [_ H]. now apply IH in H.
    + now apply IH in H.
Qed.

Lemma tidy_prefix (x y : jsstring) :
  forall b, tidy b (x ++ y) = true -> tidy b x = true.
Proof.
  induction x as [|c x IH]; intros b H; simpl in *; [reflexivity|].
  destruct (is_space c).
  - apply andb_true_iff in H. destruct H as [H1 H2].
    rewrite H1. now apply IH in H2.
  - now apply IH in H.
Qed.

(** [trim s] is what is left of [s] between two strings. *)
Lemma trim_split (s : jsstring) :
  exists pre post, s = pre ++ trim s ++ post.
Proof.
  unfold trim.
  destruct (dropWhile_split is_space s) as [pre Hpre].
  destruct (dropWhile_split is_space (rev (dropWhile is_space s)))
    as [post Hpost].
  exists pre, (rev post).
  rewrite <- rev_app_distr, <- Hpost, rev_involutive. exact Hpre.
Qed.

Lemma tidy_trim (s : jsstring) :
  tidy false s = true -> tidy false (trim s) = true.
Proof.
  intros H. destruct (trim_split s) as [pre [post E]].
  rewrite E in H. apply tidy_suffix in H. now apply tidy_prefix in H.
Qed.

Lemma trim_head (s : jsstring) (x : N) :
  head (trim s) = Some x -> is_space x = false.
Proof.
  unfold trim. intros H.
  destruct (dropWhile_split is_space (rev (dropWhile is_space s)))
    as [post Hpost].
  apply (f_equal (@rev N)) in Hpost.
  rewrite rev_involutive, rev_app_distr in Hpost.
  apply (dropWhile_head is_space s x). rewrite Hpost.
  destruct (rev (dropWhile is_space (rev (dropWhile is_space s))));
    [discriminate | exact H].
Qed.

Lemma trim_trim (s : jsstring) : trim (trim s) = trim s.
Proof.
  unfold trim at 1.
  rewrite (dropWhile_id is_space (trim s)) by apply trim_head.
  rewrite dropWhile_id; [apply rev_involutive|].
  unfold trim. rewrite rev_involutive. apply dropWhile_head.
Qed.

(** Normalising twice is normalising once. *)
Lemma normalize_idem (t : jsstring) : normalize (normalize t) = normalize t.
Proof.
  unfold normalize. rewrite !replaceAll_spaces.
  rewrite (collapse_tidy (trim (collapse false t)) false).
  - apply trim_trim.
  - apply tidy_trim, tidy_collapse.
Qed.

Lemma collapse_length (s : jsstring) :
  forall b, List.length (collapse b s) <= List.length s.
Proof.
  induction s as [|c s IH]; intros b; simpl; [lia|].
  pose proof (IH true). pose proof (IH false).
  destruct (is_space c); [destruct b|]; simpl; lia.
Qed.

Lemma trim_length (s : jsstring) : List.length (trim s) <= List.length s.
Proof.
  unfold trim. rewrite length_rev.
  etransitivity; [apply dropWhile_length|]. rewrite length_rev.
  apply dropWhile_length.
Qed.

Lemma canonical_length (s : jsstring) :
  List.length (canonical s) <= List.length s.
Proof.
  unfold canonical, toLowerCase. rewrite length_map, replaceAll_spaces.
  etransitivity; [apply trim_length | apply collapse_length].
Qed.

Lemma canonical_normalized (t : jsstring) :
  canonical (normalize t) = toLowerCase (normalize t).
Proof.
  unfold canonical. fold (normalize (normalize t)).
  now rewrite normalize_idem.
Qed.

Lemma truncate_length (s : jsstring) (max : nat) :
  List.length (truncate s max) <= max + 1.
Proof.
  unfold truncate. destruct (List.length s <=? max) eqn:E.
  - apply Nat.leb_le in E. lia.
  - rewrite length_app. simpl.
    assert (H : forall x, List.length x <= max ->
                          List.length (trim x) + 1 <= max + 1).
    { intros x Hx. pose proof (trim_length x). lia. }
    apply H. unfold slice0.
    destruct (omax _ _) as [b|]; [destruct (40 <? b)|];
      rewrite ?length_firstn; lia.
Qed.

(** On the standard path, the canonical form of the summary is never the
    canonical form of the text. *)
Lemma standard_path_never_echoes (text : jsstring) (maxPoints : nat) :
  let normalized := normalize text in
  isShort normalized (sentencesOf normalized) = false ->
  extractiveSummary text maxPoints
  = standardSummary normalized (sentencesOf normalized) maxPoints
  /\ canonical (extractiveSummary text maxPoints) <> canonical normalized
  /\ canonical normalized = canonical text.
Proof.
  intros normalized Hlong.
  assert (Hlen : 280 <= List.length normalized).
  { unfold isShort in Hlong. apply orb_false_iff in Hlong.
    destruct Hlong as [H _]. apply Nat.ltb_ge in H. exact H. }
  assert (Hsame : canonical normalized = canonical text).
  { unfold normalized. rewrite canonical_normalized. reflexivity. }
  assert (Hrun : extractiveSummary text maxPoints
                 = standardSummary normalized (sentencesOf normalized)
                     maxPoints).
  { unfold extractiveSummary. fold normalized.
    destruct normalized as [|c rest] eqn:E; [simpl in Hlen; lia|].
    now rewrite Hlong. }
  split; [exact Hrun|]. split; [|exact Hsame].
  rewrite Hrun. unfold standardSummary.
  match goal with |- context [if ?c then _ else _] => destruct c eqn:Hc end.
  - intros Heq. apply (f_equal (@List.length N)) in Heq.
    pose proof (canonical_length
      (join [LFu] [js "- Summary:"; js "- " ++ truncate normalized 200]))
      as Hle.
    rewrite Heq in Hle. unfold normalized in Hle at 1.
    rewrite canonical_normalized in Hle. fold normalized in Hle.
    unfold toLowerCase in Hle. rewrite length_map in Hle.
    cbn [join] in Hle. rewrite !length_app in Hle.
    pose proof (truncate_length normalized 200) as Ht.
    simpl in Hle. lia.
  - intros Heq. apply str_eqb_eq in Heq. congruence.
Qed.

End Summary.

(** C5 at the input [echo_input] with five bullets, the only number of
    bullets the route asks for.  The input is already normalised and is
    226 code units long, so the path for short texts is taken; it returns
    three bullets without comparing them to the input, and their
    canonical form is the canonical form of the input. *)
Theorem summary_echoes_input :
  Summarize.normalize Summarize.echo_input = Summarize.echo_input
  /\ List.length Summarize.echo_input = 226
  /\ Summarize.isShort Summarize.echo_input
       (Summarize.sentencesOf Summarize.echo_input) = true
  /\ Summarize.extractiveSummary Summarize.echo_input 5
     = js "- Topic: Topic" ++ [LFu]
       ++ js "- Key terms: topic, key, terms, summary" ++ [LFu]
       ++ js "- Summary: " ++ firstn 159 Summarize.echo_input
       ++ Summarize.ellipsis
  /\ Summarize.canonical (Summarize.extractiveSummary Summarize.echo_input 5)
     = Summarize.canonical Summarize.echo_input.
Proof.
  repeat split; vm_compute; reflexivity.
Qed.

(* ===================================================================== *)
(** ** What the trainer counts *)
(* ===================================================================== *)

Section Counting.

Lemma filter_length_cons {A} (p : A -> bool) (x : A) (l : list A) :
  List.length (List.filter p (x :: l))
  = (if p x then 1 else 0) + List.length (List.filter p l).
Proof. simpl. destruct (p x); reflexivity. Qed.

Lemma label_eqb_refl (l : Label) : label_eqb l l = true.
Proof. now apply label_eqb_eq. Qed.

Lemma label_eqb_neq (l l' : Label) : l <> l' -> label_eqb l l' = false.
Proof.
  intros H. destruct (label_eqb l l') eqn:E; [|reflexivity].
  apply label_eqb_eq in E. contradiction.
Qed.

Lemma count_token_count (l : Label) (a : Acc) (t : jsstring)
  (l' : Label) (t' : jsstring) :
  accCount (count_token l a t) l' t'
  = accCount a l' t' + (if label_eqb l l' && str_eqb t t' then 1 else 0).
Proof.
  unfold accCount, count_token. simpl. rewrite pget_pset.
  destruct (decide (l = l')) as [<-|Hne].
  - rewrite label_eqb_refl. simpl. rewrite lookup_insert.
    destruct (decide (t = t')) as [<-|Hnt].
    + assert (H : str_eqb t t = true) by now apply str_eqb_eq.
      rewrite H. reflexivity.
    + assert (H : str_eqb t t' = false).
      { destruct (str_eqb t t') eqn:E; [|reflexivity].
        apply str_eqb_eq in E. contradiction. }
      rewrite H. lia.
  - rewrite (label_eqb_neq l l' Hne). simpl. lia.
Qed.

Lemma count_token_total (l : Label) (a : Acc) (t : jsstring) (l' : Label) :
  pget (a_totalTokens (count_token l a t)) l'
  = pget (a_totalTokens a) l' + (if label_eqb l l' then 1 else 0).
Proof.
  unfold count_token. simpl. rewrite pget_pset.
  destruct (decide (l = l')) as [<-|Hne].
  - now rewrite label_eqb_refl.
  - rewrite (label_eqb_neq l l' Hne). lia.
Qed.

Lemma count_tokens_docs (l : Label) (toks : list jsstring) :
  forall a, a_docCount (fold_left (count_token l) toks a) = a_docCount a.
Proof.
  induction toks as [|t toks IH]; intros a; simpl; [reflexivity|].
  now rewrite IH.
Qed.

Lemma count_tokens_total (l : Label) (toks : list jsstring) (l' : Label) :
  forall a,
    pget (a_totalTokens (fold_left (count_token l) toks a)) l'
    = pget (a_totalTokens a) l'
      + (if label_eqb l l' then List.length toks else 0).
Proof.
  induction toks as [|t toks IH]; intros a; simpl.
  - destruct (label_eqb l l'); lia.
  - rewrite IH, count_token_total. destruct (label_eqb l l'); lia.
Qed.

Lemma count_tokens_count (l : Label) (toks : list jsstring) (l' : Label)
  (t' : jsstring) :
  NoDup toks ->
  forall a,
    accCount (fold_left (count_token l) toks a) l' t'
    = accCount a l' t'
      + (if label_eqb l l' && str_mem t' toks then 1 else 0).
Proof.
  induction 1 as [|t toks Hnot Hnd IH]; intros a; simpl.
  - rewrite andb_false_r. lia.
  - rewrite IH, count_token_count.
    destruct (label_eqb l l'); simpl; [|lia].
    destruct (str_eqb t t') eqn:E.
    + apply str_eqb_eq in E. subst t'.
      assert (Hm : str_mem t toks = false).
      { destruct (str_mem t toks) eqn:M; [|reflexivity].
        apply str_mem_elem in M. contradiction. }
      assert (Hr : str_eqb t t = true) by now apply str_eqb_eq.
      rewrite Hm, Hr. simpl. lia.
    + assert (Hr : str_eqb t' t = false).
      { destruct (str_eqb t' t) eqn:E2; [|reflexivity].
        apply str_eqb_eq in E2. subst t'.
        assert (str_eqb t t = true) by now apply str_eqb_eq. congruence. }
      rewrite Hr. simpl. lia.
Qed.

Lemma str_mem_uniq (t : jsstring) (xs : list jsstring) :
  str_mem t (uniq xs) = str_mem t xs.
Proof.
  destruct (str_mem t xs) eqn:E.
  - apply str_mem_elem. apply uniq_elem. now apply str_mem_elem.
  - destruct (str_mem t (uniq xs)) eqn:E2; [|reflexivity].
    apply (proj1 (str_mem_elem _ _)) in E2.
    apply (proj1 (uniq_elem _ _)) in E2.
    apply (proj2 (str_mem_elem _ _)) in E2. congruence.
Qed.

Lemma train_row_reads (a : Acc) (row : DatasetRow) (l : Label)
  (t : jsstring) :
  accCount (train_row a row) l t
    = accCount a l t + (if rowHas l t row then 1 else 0)
  /\ pget (a_docCount (train_row a row)) l
     = pget (a_docCount a) l + (if hasLabel l row then 1 else 0)
  /\ pget (a_totalTokens (train_row a row)) l
     = pget (a_totalTokens a) l
       + (if hasLabel l row
          then List.length (uniq (tokenize (text row))) else 0).
Proof.
  unfold train_row, rowHas, hasLabel. split; [|split].
  - rewrite count_tokens_count by apply uniq_NoDup.
    rewrite str_mem_uniq. reflexivity.
  - rewrite count_tokens_docs. simpl. rewrite pget_pset.
    destruct (decide (label row = l)) as [->|Hne].
    + now rewrite label_eqb_refl.
    + rewrite (label_eqb_neq _ _ Hne). lia.
  - rewrite count_tokens_total. reflexivity.
Qed.

Lemma train_rows_reads (rows : list DatasetRow) (l : Label) (t : jsstring) :
  forall a,
    accCount (fold_left train_row rows a) l t
      = accCount a l t + docsWith l t rows
    /\ pget (a_docCount (fold_left train_row rows a)) l
       = pget (a_docCount a) l + docsOf l rows
    /\ pget (a_totalTokens (fold_left train_row rows a)) l
       = pget (a_totalTokens a) l + presences l rows.
Proof.
  induction rows as [|row rows IH]; intros a.
  - unfold docsWith, docsOf, presences. simpl. lia.
  - cbn [fold_left]. destruct (IH (train_row a row)) as (H1 & H2 & H3).
    destruct (train_row_reads a row l t) as (R1 & R2 & R3).
    rewrite H1, H2, H3, R1, R2, R3.
    unfold docsWith, docsOf, presences.
    rewrite !filter_length_cons. simpl List.filter.
    destruct (hasLabel l row); simpl; lia.
Qed.

Lemma sumCounts_bump (m : gmap jsstring nat) (t : jsstring) :
  sumCounts (<[ t := default 0 (m !! t) + 1 ]> m) = S (sumCounts m).
Proof.
  unfold sumCounts. destruct (m !! t) as [c|] eqn:E; simpl.
  - rewrite <- insert_delete_eq.
    rewrite map_fold_insert_L;
      [|intros; lia | apply lookup_delete_eq].
    rewrite (map_fold_delete_L _ _ t c m); [lia | intros; lia | exact E].
  - rewrite map_fold_insert_L; [lia | intros; lia | exact E].
Qed.

Lemma count_token_sum (l : Label) (a : Acc) (t : jsstring) (l' : Label) :
  sumCounts (pget (a_tokenCounts (count_token l a t)) l')
  = sumCounts (pget (a_tokenCounts a) l')
    + (if label_eqb l l' then 1 else 0).
Proof.
  unfold count_token. simpl. rewrite pget_pset.
  destruct (decide (l = l')) as [<-|Hne].
  - rewrite label_eqb_refl, sumCounts_bump. lia.
  - rewrite (label_eqb_neq l l' Hne). lia.
Qed.

Lemma totals_agree_rows (rows : list DatasetRow) :
  forall a, totals_agree a -> totals_agree (fold_left train_row rows a).
Proof.
  induction rows as [|row rows IH]; intros a Ha; [exact Ha|].
  cbn [fold_left]. apply IH. unfold train_row.
  set (a1 := mkAcc _ _ _ _).
  assert (H1 : totals_agree a1) by exact Ha.
  clearbody a1. revert a1 H1.
  induction (uniq (tokenize (text row))) as [|t toks IHt]; intros a1 H1;
    [exact H1|].
  cbn [fold_left]. apply IHt. intros l'.
  rewrite count_token_total, count_token_sum, (H1 l'). reflexivity.
Qed.

End Counting.

Section CountingResults.

Lemma trained_reads (rows : list DatasetRow) (l : Label) (t : jsstring) :
  countOf (trainNaiveBayes rows) l t = docsWith l t rows
  /\ pget (docCount (trainNaiveBayes rows)) l = docsOf l rows
  /\ pget (totalTokens (trainNaiveBayes rows)) l = presences l rows.
Proof.
  destruct (train_rows_reads rows l t acc0) as (H1 & H2 & H3).
  unfold countOf. simpl. unfold accCount in H1.
  rewrite H1, H2, H3. destruct l; simpl; rewrite ?lookup_empty; auto.
Qed.

Lemma trained_lookup (rows : list DatasetRow) (l : Label) (t : jsstring) :
  pget (tokenCounts (trainNaiveBayes rows)) l !! t
  = if docsWith l t rows =? 0 then None else Some (docsWith l t rows).
Proof.
  destruct (trained_reads rows l t) as (H1 & _ & _).
  unfold countOf in H1.
  destruct (trained_inv rows) as [_ _ Hpos].
  destruct (pget (tokenCounts (trainNaiveBayes rows)) l !! t) as [c|] eqn:E.
  - simpl in H1. subst c. simpl in E. specialize (Hpos l t _ E).
    destruct (docsWith l t rows); [lia | reflexivity].
  - simpl in H1. now rewrite <- H1.
Qed.

Lemma docsWith_pos (l : Label) (t : jsstring) (rows : list DatasetRow) :
  0 < docsWith l t rows <->
  exists row, row ∈ rows /\ label row = l /\ t ∈ tokenize (text row).
Proof.
  unfold docsWith. induction rows as [|row rows IH].
  - simpl. split; [lia|]. intros [row [H _]]. now apply elem_of_nil in H.
  - rewrite filter_length_cons. split.
    + intros H. destruct (rowHas l t row) eqn:E.
      * exists row. split; [apply elem_of_cons; now left|].
        unfold rowHas, hasLabel in E. apply andb_true_iff in E.
        destruct E as [E1 E2]. apply label_eqb_eq in E1.
        apply str_mem_elem in E2. now split.
      * simpl in H. apply IH in H. destruct H as [r [Hr Hrest]].
        exists r. split; [apply elem_of_cons; now right | exact Hrest].
    + intros [r [Hr [Hl Ht]]]. apply elem_of_cons in Hr.
      destruct Hr as [-> | Hr].
      * assert (E : rowHas l t row = true).
        { unfold rowHas, hasLabel. apply andb_true_iff. split.
          - now apply label_eqb_eq.
          - now apply str_mem_elem. }
        rewrite E. lia.
      * assert (0 < List.length (List.filter (rowHas l t) rows)).
        { apply IH. exists r. now split. }
        lia.
Qed.

Lemma perlabel_ext {A} (r r' : PerLabel A) :
  (forall l, pget r l = pget r' l) -> r = r'.
Proof.
  intros H. destruct r, r'.
  pose proof (H neutral). pose proof (H slightly_biased).
  pose proof (H highly_biased). simpl in *. now subst.
Qed.

Lemma filter_length_perm {A} (p : A -> bool) (l l' : list A) :
  Permutation l l' ->
  List.length (List.filter p l) = List.length (List.filter p l').
Proof.
  induction 1 as [|x l l' _ IH|x y l|l l' l'' _ IH1 _ IH2].
  - reflexivity.
  - rewrite !filter_length_cons. now rewrite IH.
  - rewrite !filter_length_cons. lia.
  - now rewrite IH1.
Qed.

Lemma presences_perm (l : Label) (rows rows' : list DatasetRow) :
  Permutation rows rows' -> presences l rows = presences l rows'.
Proof.
  unfold presences.
  induction 1 as [|x r r' _ IH|x y r|r r' r'' _ IH1 _ IH2].
  - reflexivity.
  - simpl. destruct (hasLabel l x); simpl; now rewrite IH.
  - simpl. destruct (hasLabel l x), (hasLabel l y); simpl; lia.
  - now rewrite IH1.
Qed.

Lemma presences_app (l : Label) (r1 r2 : list DatasetRow) :
  presences l (r1 ++ r2) = presences l r1 + presences l r2.
Proof.
  unfold presences. induction r1 as [|x r1 IH]; simpl; [reflexivity|].
  destruct (hasLabel l x); simpl; rewrite IH; lia.
Qed.

Lemma trained_vocab (rows : list DatasetRow) (t : jsstring) :
  t ∈ vocab (trainNaiveBayes rows) <->
  exists row, row ∈ rows /\ t ∈ tokenize (text row).
Proof.
  destruct (trained_inv rows) as [_ Hv _]. simpl. rewrite Hv. split.
  - intros [l Hl].
    pose proof (trained_lookup rows l t) as Hlk. simpl in Hlk.
    rewrite Hlk in Hl.
    destruct (docsWith l t rows) as [|n] eqn:E; simpl in Hl.
    + destruct Hl as [c Hc]. discriminate.
    + assert (Hpos : 0 < docsWith l t rows) by lia.
      apply docsWith_pos in Hpos. destruct Hpos as [row [Hr [_ Ht]]].
      exists row. now split.
  - intros [row [Hr Ht]]. exists (label row).
    pose proof (trained_lookup rows (label row) t) as Hlk. simpl in Hlk.
    rewrite Hlk.
    assert (Hpos : 0 < docsWith (label row) t rows).
    { apply docsWith_pos. exists row. now repeat split. }
    destruct (docsWith (label row) t rows); [lia|]. simpl. eauto.
Qed.

End CountingResults.

(** X1. What the trainer counts.  For the model trained on any rows:
    the document count of a label is the number of rows with that label;
    the presence count of a token under a label is the number of rows
    with that label whose text has the token, however often (there is no
    entry exactly when that number is 0); the total of a label is the sum
    of the numbers of distinct tokens of its rows; and the vocabulary
    holds exactly the tokens of the texts. *)
Theorem trainer_counts (rows : list DatasetRow) (l : Label) (t : jsstring) :
  let m := trainNaiveBayes rows in
  pget (docCount m) l = docsOf l rows
  /\ default 0 (pget (tokenCounts m) l !! t) = docsWith l t rows
  /\ (pget (tokenCounts m) l !! t = None <-> docsWith l t rows = 0)
  /\ pget (totalTokens m) l = presences l rows
  /\ (t ∈ vocab m <->
      exists row, row ∈ rows /\ t ∈ tokenize (text row)).
Proof.
  intros m. destruct (trained_reads rows l t) as (H1 & H2 & H3).
  split; [exact H2|]. split; [exact H1|]. split; [|split].
  - subst m. rewrite trained_lookup.
    destruct (docsWith l t rows); simpl; split; congruence.
  - exact H3.
  - apply trained_vocab.
Qed.

(** X2. In every trained model the total of a label is the sum of all
    its presence counts. *)
Theorem total_is_sum_of_counts (rows : list DatasetRow) (l : Label) :
  pget (totalTokens (trainNaiveBayes rows)) l
  = sumCounts (pget (tokenCounts (trainNaiveBayes rows)) l).
Proof.
  apply (totals_agree_rows rows acc0).
  intros l'. destruct l'; reflexivity.
Qed.

(** X3. The trained model does not depend on the order of the rows. *)
Theorem training_order_irrelevant (rows rows' : list DatasetRow)
  (Hperm : Permutation rows rows') :
  trainNaiveBayes rows = trainNaiveBayes rows'.
Proof.
  assert (Hv : vocab (trainNaiveBayes rows) = vocab (trainNaiveBayes rows')).
  { apply set_eq. intros t. rewrite !trained_vocab. split.
    - intros [row [Hr Ht]]. exists row. split; [|exact Ht].
      now rewrite <- Hperm.
    - intros [row [Hr Ht]]. exists row. split; [|exact Ht].
      now rewrite Hperm. }
  assert (Hd : docCount (trainNaiveBayes rows)
               = docCount (trainNaiveBayes rows')).
  { apply perlabel_ext. intros l.
    destruct (trained_reads rows l []) as (_ & -> & _).
    destruct (trained_reads rows' l []) as (_ & -> & _).
    now apply filter_length_perm. }
  assert (Hc : tokenCounts (trainNaiveBayes rows)
               = tokenCounts (trainNaiveBayes rows')).
  { apply perlabel_ext. intros l. apply map_eq. intros t.
    rewrite !trained_lookup. unfold docsWith.
    now rewrite (filter_length_perm (rowHas l t) rows rows' Hperm). }
  assert (Ht : totalTokens (trainNaiveBayes rows)
               = totalTokens (trainNaiveBayes rows')).
  { apply perlabel_ext. intros l.
    destruct (trained_reads rows l []) as (_ & _ & ->).
    destruct (trained_reads rows' l []) as (_ & _ & ->).
    now apply presences_perm. }
  assert (Hn : trainedOn (trainNaiveBayes rows)
               = trainedOn (trainNaiveBayes rows')).
  { simpl. now apply Permutation_length. }
  unfold trainNaiveBayes in *. simpl in Hv, Hd, Hc, Ht, Hn.
  cbv zeta. now rewrite Hv, Hd, Hc, Ht, Hn.
Qed.

Lemma training_order_irrelevant_witness :
  trainNaiveBayes sample_rows = trainNaiveBayes (rev sample_rows).
Proof.
  apply (training_order_irrelevant sample_rows (rev sample_rows)).
  apply Permutation_rev.
Defined.

(** X4. Training on two lists of rows put end to end adds up what
    training on each gives: the document counts, the presence counts,
    the totals and [trainedOn] are the sums, and the vocabulary is the
    union.  Training on a list repeated twice thus doubles every count
    and keeps the vocabulary. *)
Theorem training_concat (r1 r2 : list DatasetRow) (l : Label)
  (t : jsstring) :
  let m := trainNaiveBayes (r1 ++ r2) in
  let m1 := trainNaiveBayes r1 in
  let m2 := trainNaiveBayes r2 in
  pget (docCount m) l = pget (docCount m1) l + pget (docCount m2) l
  /\ countOf m l t = countOf m1 l t + countOf m2 l t
  /\ pget (totalTokens m) l
     = pget (totalTokens m1) l + pget (totalTokens m2) l
  /\ trainedOn m = trainedOn m1 + trainedOn m2
  /\ vocab m = vocab m1 ∪ vocab m2.
Proof.
  intros m m1 m2. subst m m1 m2.
  destruct (trained_reads (r1 ++ r2) l t) as (A1 & A2 & A3).
  destruct (trained_reads r1 l t) as (B1 & B2 & B3).
  destruct (trained_reads r2 l t) as (C1 & C2 & C3).
  rewrite A1, A2, A3, B1, B2, B3, C1, C2, C3.
  unfold docsOf, docsWith. rewrite !List.filter_app, !List.length_app, presences_app.
  split; [reflexivity|]. split; [reflexivity|]. split; [reflexivity|].
  split; [simpl; apply length_app|].
  apply set_eq. intros u. rewrite elem_of_union, !trained_vocab. split.
  - intros [row [Hr Hu]]. apply elem_of_app in Hr.
    destruct Hr as [Hr|Hr]; [left | right]; exists row; now split.
  - intros [[row [Hr Hu]] | [row [Hr Hu]]]; exists row;
      (split; [apply elem_of_app; auto | exact Hu]).
Qed.

(* ===================================================================== *)
(** ** More on the scores and the probabilities *)
(* ===================================================================== *)

Section ScoresMore.
Local Open Scope R_scope.

Lemma filter_and_length {A} (p q : A -> bool) (l : list A) :
  (List.length (List.filter (fun x => p x && q x) l)
   <= List.length (List.filter p l))%nat.
Proof.
  induction l as [|x l IH]; simpl; [lia|].
  destruct (p x), (q x); simpl; lia.
Qed.

Lemma filter_length_le {A} (p : A -> bool) (l : list A) :
  (List.length (List.filter p l) <= List.length l)%nat.
Proof.
  induction l as [|x l IH]; simpl; [lia|]. destruct (p x); simpl; lia.
Qed.

Lemma docsWith_le_presences (l : Label) (t : jsstring)
  (rows : list DatasetRow) :
  (docsWith l t rows <= presences l rows)%nat.
Proof.
  unfold docsWith, presences, rowHas.
  induction rows as [|row rows IH]; simpl; [lia|].
  destruct (hasLabel l row); simpl; [|exact IH].
  destruct (str_mem t (tokenize (text row))) eqn:E; simpl; [|lia].
  assert (Hin : t ∈ uniq (tokenize (text row))).
  { apply uniq_elem. now apply str_mem_elem. }
  destruct (uniq (tokenize (text row))); [now apply elem_of_nil in Hin|].
  simpl. lia.
Qed.

Lemma ln_nonpos (y : R) : 0 < y <= 1 -> ln y <= 0.
Proof.
  intros [H0 [H1 | ->]].
  - left. rewrite <- ln_1. now apply ln_increasing.
  - right. apply ln_1.
Qed.

Lemma Rsum_nonpos (l : list R) : Forall (fun x => x <= 0) l -> Rsum l <= 0.
Proof.
  induction 1 as [|x l Hx _ IH]; simpl; lra.
Qed.





End ScoresMore.

(** X5. Bounds the counts keep, for every trained model: the presence
    count of a token under a label is at most the document count of the
    label and at most the total of the label, and a document count is at
    most [trainedOn].  So every smoothed likelihood is in (0, 1], and
    every log-score is a finite number that is at most the logarithm of
    the smoothed prior, which is negative. *)
Theorem count_bounds (rows : list DatasetRow) (query : jsstring)
  (l : Label) (t : jsstring) :
  let m := trainNaiveBayes rows in
  countOf m l t <= pget (docCount m) l
  /\ pget (docCount m) l <= trainedOn m
  /\ countOf m l t <= pget (totalTokens m) l
  /\ (0 < INR (countOf m l t + 1)
          / INR (pget (totalTokens m) l + vocabSize m) <= 1)%R
  /\ exists x : R,
       oget (logScores m query) l = JFin x
       /\ (x <= priorR m l)%R /\ (priorR m l < 0)%R.
Proof.
  intros m.
  assert (Hb : forall u, countOf m l u <= pget (totalTokens m) l).
  { intros u. subst m. destruct (trained_reads rows l u) as (-> & _ & ->).
    apply docsWith_le_presences. }
  assert (Hr : forall u,
             (0 < INR (countOf m l u + 1)
                  / INR (pget (totalTokens m) l + vocabSize m) <= 1)%R).
  { intros u. pose proof (vocabSize_pos m) as HV. specialize (Hb u).
    split; [apply ratio_pos; lia|].
    apply Rle_trans with (INR (pget (totalTokens m) l + vocabSize m)
                          / INR (pget (totalTokens m) l + vocabSize m))%R.
    - unfold Rdiv. apply Rmult_le_compat_r.
      + left. apply Rinv_0_lt_compat, lt_0_INR. lia.
      + apply le_INR. lia.
    - right. field. apply not_0_INR. lia. }
  split; [|split; [|split; [apply Hb | split; [apply Hr|]]]].
  - subst m. destruct (trained_reads rows l t) as (-> & -> & _).
    apply filter_and_length.
  - subst m. destruct (trained_reads rows l t) as (_ & -> & _).
    simpl. apply filter_length_le.
  - exists (scoreR m (uniq (tokenize query)) l).
    split; [|split].
    + rewrite (logScores_scores3 m query eq_refl). apply oget_scores3.
    + unfold scoreR.
      assert (Rsum (List.map (termR m l) (uniq (tokenize query))) <= 0)%R.
      { apply Rsum_nonpos. apply Forall_forall. intros x Hx.
        apply list_elem_of_In, in_map_iff in Hx. destruct Hx as [u [<- _]].
        apply ln_nonpos, Hr. }
      lra.
    + unfold priorR. rewrite <- ln_1. apply ln_increasing.
      * apply ratio_pos; simpl; lia.
      * rewrite (docTotal_fixed m eq_refl).
        assert (Hlt : (pget (docCount m) l + 1
                       < docSum (docCount m) + List.length (labels m))%nat).
        { unfold docSum. destruct l; simpl; lia. }
        apply lt_INR in Hlt.
        assert (Hpos : (0 < INR (docSum (docCount m)
                                 + List.length (labels m)))%R).
        { apply lt_0_INR. simpl. lia. }
        apply Rmult_lt_reg_r with (1 := Hpos).
        unfold Rdiv. rewrite Rmult_assoc, Rinv_l by lra. lra.
Qed.


Section Posterior.
Local Open Scope R_scope.






(** A stable sort by decreasing key gives a list of decreasing keys. *)
Lemma sortWith_sorted {A} (after : A -> A -> bool) (key : A -> R)
  (l : list A) :
  (forall a b, In a l -> In b l -> (after a b = true <-> key a < key b)) ->
  StronglySorted (fun a b => key b <= key a) (sortWith after l).
Proof.
  induction l as [|x l IH]; intros Hafter; [constructor|].
  assert (IH' : StronglySorted (fun a b => key b <= key a) (sortWith after l)).
  { apply IH. intros a b Ha Hb. apply Hafter; now right. }
  assert (Hin : forall a, In a (sortWith after l) -> In a l).
  { intros a Ha. eapply Permutation_in; [apply sortWith_perm | exact Ha]. }
  change (sortWith after (x :: l))
    with (insertSorted after x (sortWith after l)).
  clear IH. induction IH' as [|y s Hs IHs Hall]; cbn [insertSorted].
  - repeat constructor.
  - destruct (after x y) eqn:Ea.
    + assert (Hxy : key x < key y).
      { apply Hafter; [now left | right; apply Hin; now left | exact Ea]. }
      constructor.
      * apply IHs. intros a Ha. apply Hin. now right.
      * assert (Hp : Permutation (insertSorted after x s) (x :: s))
          by apply insertSorted_perm.
        apply Forall_forall. intros a Ha. apply list_elem_of_In in Ha.
        apply (Permutation_in _ Hp) in Ha. destruct Ha as [<- | Ha].
        -- lra.
        -- rewrite Forall_forall in Hall. apply Hall.
           now apply list_elem_of_In.
    + assert (Hyx : key y <= key x).
      { destruct (Rle_or_lt (key y) (key x)) as [H|H]; [exact H|].
        apply Hafter in H; [congruence | now left |].
        right. apply Hin. now left. }
      constructor; [constructor; assumption|].
      constructor; [exact Hyx|].
      eapply Forall_impl; [exact Hall|]. simpl. intros a Ha. lra.
Qed.


End Posterior.





(* ===================================================================== *)
(** ** Tokens, labels, the dataset and the handler *)
(* ===================================================================== *)

Section ClassTokens.

Lemma drop_length {A} (p : A -> bool) (l : list A) :
  List.length (dropWhile p l) <= List.length l.
Proof.
  induction l as [|x l IH]; simpl; [lia|].
  destruct (p x); simpl; lia.
Qed.

Lemma star_of_class (p : N -> bool)
  (body : option N -> jsstring ->
          (option N -> jsstring -> option jsstring) -> option jsstring)
  (Hbody : forall prev s k, body prev s k = rmatch (RChar p) prev s k)
  (n : nat) :
  forall prev s,
    List.length s < n ->
    star_loop body (fun _ rest => Some rest) n prev s
    = Some (dropWhile p s).
Proof.
  induction n as [|n IH]; intros prev s Hlen; [lia|].
  cbn [star_loop]. rewrite Hbody.
  destruct s as [|c s]; [reflexivity|]. simpl in Hlen.
  cbn [rmatch dropWhile]. destruct (p c); [|reflexivity].
  assert (Hlt : (List.length s <? List.length (c :: s)) = true).
  { apply Nat.ltb_lt. simpl. lia. }
  rewrite Hlt, IH by lia. reflexivity.
Qed.

(** One attempt of [[class]+]: the longest run of the class, if the
    position starts one. *)
Lemma match_here_class (p : N -> bool) (prev : option N) (s : jsstring) :
  match_here (RPlus (RChar p)) prev s
  = match s with
    | c :: s' =>
        if p c
        then Some (c :: firstn (List.length s'
                                - List.length (dropWhile p s')) s',
                   dropWhile p s')
        else None
    | [] => None
    end.
Proof.
  unfold match_here, RPlus.
  destruct s as [|c s']; [reflexivity|].
  cbn [rmatch]. destruct (p c); [|reflexivity].
  rewrite (star_of_class p) by (try reflexivity; lia).
  pose proof (drop_length p s') as Hle.
  cbn [List.length]. rewrite Nat.sub_succ_l by exact Hle. reflexivity.
Qed.

Lemma firstn_run (p : N -> bool) (l : jsstring) :
  forallb p (firstn (List.length l - List.length (dropWhile p l)) l) = true.
Proof.
  induction l as [|x l IH]; [reflexivity|].
  cbn [dropWhile]. destruct (p x) eqn:E.
  - pose proof (drop_length p l) as Hle.
    cbn [List.length]. rewrite Nat.sub_succ_l by exact Hle.
    cbn [firstn forallb]. now rewrite E, IH.
  - rewrite Nat.sub_diag. reflexivity.
Qed.

Lemma scan_class (p : N -> bool) (fuel : nat) :
  forall prev s,
    Forall (fun pc => match pc with
                      | Hit m => m <> [] /\ forallb p m = true
                      | Gap _ => True
                      end)
           (scan fuel (RPlus (RChar p)) prev s).
Proof.
  induction fuel as [|fuel IH]; intros prev s; [constructor|].
  cbn [scan]. rewrite match_here_class.
  destruct s as [|c s']; [constructor|].
  destruct (p c) eqn:E.
  - constructor; [|apply IH]. split; [discriminate|].
    cbn [forallb]. now rewrite E, firstn_run.
  - constructor; [exact I | apply IH].
Qed.

(** The matches of [[class]+] are non-empty words of the class. *)
Lemma matchAll_class (p : N -> bool) (s m : jsstring) :
  In m (matchAll (RPlus (RChar p)) s) -> m <> [] /\ forallb p m = true.
Proof.
  unfold matchAll, pieces. intros H. apply in_flat_map in H.
  destruct H as [pc [Hpc Hm]].
  pose proof (scan_class p (S (List.length s)) None s) as Hall.
  rewrite Forall_forall in Hall. specialize (Hall pc).
  destruct pc as [c|m']; [contradiction|].
  destruct Hm as [<-|[]]. apply Hall. now apply list_elem_of_In.
Qed.

Lemma includes_here (k b : jsstring) : starts_with k (k ++ b) = true.
Proof.
  induction k as [|x k IH]; [reflexivity|].
  simpl. now rewrite N.eqb_refl, IH.
Qed.

Lemma includes_start (s k : jsstring) :
  starts_with k s = true -> includes s k = true.
Proof. intros H. destruct s; simpl; now rewrite H. Qed.

Lemma includes_app (a k b : jsstring) : includes (a ++ k ++ b) k = true.
Proof.
  induction a as [|x a IH].
  - simpl app. apply includes_start. apply includes_here.
  - simpl. rewrite IH. apply orb_true_r.
Qed.

End ClassTokens.

(** X10. Every classifier token is a word of the letters a to z, three
    letters long at least, that is not a stopword. *)
Theorem tokenize_tokens (s t : jsstring) (Hin : In t (tokenize s)) :
  3 <= List.length t
  /\ forallb is_az t = true
  /\ str_mem t stopwords = false.
Proof.
  unfold tokenize in Hin. apply filter_In in Hin. destruct Hin as [Hm Hf].
  apply andb_true_iff in Hf. destruct Hf as [Hlen Hstop].
  apply Nat.leb_le in Hlen. apply negb_true_iff in Hstop.
  destruct (matchAll_class is_az _ _ Hm) as [_ Haz]. auto.
Qed.

Lemma tokenize_tokens_witness :
  In (js "senate") (tokenize (js "The SENATE's 3rd vote"))
  /\ 3 <= List.length (js "senate")
  /\ forallb is_az (js "senate") = true
  /\ str_mem (js "senate") stopwords = false.
Proof.
  assert (Hin : In (js "senate") (tokenize (js "The SENATE's 3rd vote"))).
  { vm_compute. tauto. }
  split; [exact Hin|].
  apply (tokenize_tokens (js "The SENATE's 3rd vote") (js "senate") Hin).
Defined.

(** X11. A raw label that is the name of a label, up to the case of its
    letters and to white space around it, is normalised to that label;
    and a raw label in which the word neutral occurs is normalised to
    [neutral], whatever else it holds: the first keyword that matches
    decides. *)
Theorem normalizeLabel_names (raw : jsstring) (l : Label) (a b : jsstring) :
  (toLowerCase (trim raw) = labelName l -> normalizeLabel raw = Some l)
  /\ (toLowerCase (trim raw) = a ++ js "neutral" ++ b ->
      normalizeLabel raw = Some neutral).
Proof.
  unfold normalizeLabel. split; intros ->.
  - destruct l; reflexivity.
  - now rewrite includes_app.
Qed.

Lemma normalizeLabel_names_witness :
  normalizeLabel (js "  Highly-Biased ") = Some highly_biased
  /\ normalizeLabel (js "Not neutral: HIGH, extreme") = Some neutral.
Proof.
  destruct (normalizeLabel_names (js "  Highly-Biased ") highly_biased [] [])
    as [H1 _].
  destruct (normalizeLabel_names (js "Not neutral: HIGH, extreme") neutral
              (js "not ") (js ": high, extreme")) as [_ H2].
  split; [apply H1 | apply H2]; reflexivity.
Defined.

Section CsvMore.

Lemma csv_loop_rows (n : nat) :
  forall s inQ rows row field,
    List.length s <= n ->
    Forall (fun r => r <> []) rows ->
    Forall (fun r => r <> []) (c_rows (csv_loop inQ rows row field s)).
Proof.
  induction n as [|n IH]; intros s inQ rows row field Hlen Hrows.
  - destruct s; [exact Hrows | simpl in Hlen; lia].
  - destruct s as [|c s]; [exact Hrows|]. simpl in Hlen.
    cbn [csv_loop]. destruct inQ.
    + destruct (c =? dquote)%N; [|apply IH; [lia | exact Hrows]].
      destruct s as [|c2 s']; [apply IH; [simpl; lia | exact Hrows]|].
      simpl in Hlen.
      destruct (c2 =? dquote)%N; apply IH; simpl; try lia; exact Hrows.
    + destruct (c =? dquote)%N; [apply IH; [lia | exact Hrows]|].
      destruct (c =? comma)%N; [apply IH; [lia | exact Hrows]|].
      destruct (c =? LFu)%N.
      * apply IH; [lia|]. apply Forall_app. split; [exact Hrows|].
        constructor; [|constructor]. destruct row; discriminate.
      * destruct (c =? CRu)%N; apply IH; try lia; exact Hrows.
Qed.

Lemma csv_finish_rows (st : CsvState) :
  Forall (fun r => r <> []) (c_rows st) ->
  Forall (fun r => r <> []) (csv_finish st).
Proof.
  intros H. unfold csv_finish.
  assert (Hall : Forall (fun r : list jsstring => r <> [])
                   (c_rows st ++ [c_row st ++ [c_field st]])).
  { apply Forall_app. split; [exact H|].
    constructor; [|constructor]. destruct (c_row st); discriminate. }
  destruct (List.last _ _) as [|[|? ?] [|? ?]]; try exact Hall.
  rewrite removelast_last. exact H.
Qed.

Lemma csv_plain_all (p : jsstring) (rows : list (list jsstring))
  (row : list jsstring) (field : jsstring) :
  plain p = true ->
  csv_loop false rows row field p = mkCsv rows row (field ++ p) false.
Proof.
  intros Hp. rewrite <- (app_nil_r p) at 1. now rewrite csv_plain.
Qed.

Lemma csv_cell_end (c : Cell) (rows : list (list jsstring))
  (row : list jsstring) :
  cell_ok c = true ->
  csv_loop false rows row [] (render_cell c) = mkCsv rows row (content c) false.
Proof.
  intros Hok. rewrite <- (app_nil_r (render_cell c)).
  rewrite (csv_cell c Hok) by discriminate. reflexivity.
Qed.

(** A last row without its line ending: its fields but the last are in
    the row, the last one is the field being read. *)
Lemma csv_row_end (cells : list Cell) :
  cells <> [] ->
  forallb cell_ok cells = true ->
  forall rows row,
    exists fields last_field,
      List.map content cells = fields ++ [last_field]
      /\ csv_loop false rows row [] (render_row cells)
         = mkCsv rows (row ++ fields) last_field false.
Proof.
  induction cells as [|c cells IH]; intros Hne Hok rows row;
    [contradiction|].
  simpl in Hok. apply andb_true_iff in Hok. destruct Hok as [Hc Hok].
  destruct cells as [|c2 cells].
  - exists [], (content c). split; [reflexivity|].
    unfold render_row. simpl join. rewrite app_nil_r.
    now apply csv_cell_end.
  - destruct (IH ltac:(discriminate) Hok rows (row ++ [content c]))
      as (fields & lf & Hmap & Hrun).
    exists (content c :: fields), lf. split.
    + cbn [List.map]. cbn [List.map] in Hmap. now rewrite Hmap.
    + unfold render_row.
      change (List.map render_cell (c :: c2 :: cells))
        with (render_cell c :: List.map render_cell (c2 :: cells)).
      change (join [comma]
                (render_cell c :: List.map render_cell (c2 :: cells)))
        with (render_cell c ++ [comma] ++ render_row (c2 :: cells)).
      rewrite (csv_cell c Hc) by discriminate.
      simpl app at 1.
      change (csv_loop false rows row (content c)
                (comma :: render_row (c2 :: cells)))
        with (csv_loop false rows (row ++ [content c]) []
                (render_row (c2 :: cells))).
      rewrite Hrun. now rewrite <- app_assoc.
Qed.

Lemma csv_loop_from_table (t : list (list Cell * Eol)) (rest : jsstring) :
  table_ok t = true ->
  forall rows,
    csv_loop false rows [] [] (render_csv t ++ rest)
    = csv_loop false (rows ++ table_of t) [] [] rest.
Proof.
  induction t as [|[cells e] t IH]; intros Hok rows.
  - simpl. now rewrite app_nil_r.
  - simpl in Hok. apply andb_true_iff in Hok. destruct Hok as [Hr Hok].
    unfold row_ok in Hr. simpl in Hr.
    assert (Hne : cells <> []) by (destruct cells; discriminate).
    assert (Hcells : forallb cell_ok cells = true)
      by (destruct cells; [discriminate | exact Hr]).
    simpl render_csv. rewrite <- !app_assoc.
    rewrite (csv_row cells Hne Hcells). rewrite (IH Hok).
    simpl. now rewrite <- app_assoc.
Qed.

End CsvMore.

(** X12. Whatever the text, no row that [parseCSV] returns is empty:
    every row has one field at least.  A text without quote, comma, CR
    and LF is read as one row of one field, the text itself. *)
Theorem parseCSV_rows_nonempty (s : jsstring) :
  Forall (fun r => r <> []) (parseCSV s)
  /\ (plain s = true -> s <> [] -> parseCSV s = [[s]]).
Proof.
  split.
  - unfold parseCSV. apply csv_finish_rows.
    apply (csv_loop_rows (List.length s)); [lia | constructor].
  - intros Hp Hne. unfold parseCSV. rewrite csv_plain_all by exact Hp.
    unfold csv_finish. simpl. destruct s; [contradiction | reflexivity].
Qed.

Lemma parseCSV_rows_nonempty_witness :
  parseCSV (js "one field only") = [[js "one field only"]].
Proof.
  apply (proj2 (parseCSV_rows_nonempty (js "one field only")));
    [reflexivity | discriminate].
Defined.

(** X13. The line ending of the last row can be left out: a table
    written as CSV text whose last row has no line ending is read back
    as the same table, unless that last row is one empty field (it is
    then dropped). *)
Theorem parseCSV_final_eol_optional (t : list (list Cell * Eol))
  (cells : list Cell) (e : Eol)
  (Hok : table_ok (t ++ [(cells, e)]) = true)
  (Hlast : List.map content cells <> [[]]) :
  parseCSV (render_csv t ++ render_row cells)
  = table_of (t ++ [(cells, e)])
  /\ parseCSV (render_csv t ++ render_row cells)
     = parseCSV (render_csv (t ++ [(cells, e)])).
Proof.
  assert (Hboth : table_ok t = true /\ row_ok (cells, e) = true).
  { unfold table_ok in Hok. rewrite forallb_app in Hok.
    apply andb_true_iff in Hok. destruct Hok as [H1 H2].
    simpl in H2. rewrite andb_true_r in H2. now split. }
  destruct Hboth as [Ht Hr]. unfold row_ok in Hr. simpl in Hr.
  assert (Hne : cells <> []) by (destruct cells; discriminate).
  assert (Hcells : forallb cell_ok cells = true)
    by (destruct cells; [discriminate | exact Hr]).
  assert (H1 : parseCSV (render_csv t ++ render_row cells)
               = table_of (t ++ [(cells, e)])).
  { unfold parseCSV. rewrite (csv_loop_from_table t _ Ht).
    destruct (csv_row_end cells Hne Hcells ([] ++ table_of t) [])
      as (fields & lf & Hmap & Hrun).
    rewrite Hrun. unfold csv_finish. cbn [c_rows c_row c_field].
    change ([] ++ table_of t) with (table_of t).
    change ([] ++ fields) with fields.
    rewrite <- Hmap. rewrite last_snoc.
    unfold table_of. rewrite List.map_app. simpl.
    destruct (List.map content cells) as [|[|? ?] [|? ?]]; try reflexivity.
    now contradiction Hlast. }
  split; [exact H1|]. rewrite H1. symmetry.
  unfold parseCSV. rewrite (csv_table _ Hok). unfold csv_finish. simpl.
  rewrite last_snoc. apply removelast_last.
Qed.

Lemma parseCSV_final_eol_optional_witness :
  parseCSV (render_csv [([mkCell false (js "text"); mkCell false (js "label")],
                         CRLF)]
            ++ render_row [mkCell true example_value; mkCell false []])
  = [[js "text"; js "label"]; [example_value; []]].
Proof.
  apply (proj1 (parseCSV_final_eol_optional
    [([mkCell false (js "text"); mkCell false (js "label")], CRLF)]
    [mkCell true example_value; mkCell false []] LF eq_refl
    ltac:(discriminate))).
Defined.

Section Dataset.





Lemma dropWhile_nil {A} (p : A -> bool) (l : list A) :
  dropWhile p l = [] <-> forallb p l = true.
Proof.
  induction l as [|x l IH]; simpl; [tauto|].
  destruct (p x); simpl; [exact IH|]. split; discriminate.
Qed.

Lemma forallb_rev' {A} (p : A -> bool) (l : list A) :
  forallb p (rev l) = forallb p l.
Proof.
  induction l as [|x l IH]; [reflexivity|].
  simpl. rewrite forallb_app, IH. simpl.
  rewrite andb_true_r. apply andb_comm.
Qed.

(** [trim] leaves nothing exactly of the texts of white space only. *)
Lemma trim_nil (s : jsstring) : trim s = [] <-> forallb is_space s = true.
Proof.
  unfold trim. split.
  - intros H. apply (f_equal (@rev N)) in H. rewrite rev_involutive in H.
    simpl in H. apply (proj1 (dropWhile_nil _ _)) in H.
    rewrite forallb_rev' in H.
    destruct (dropWhile is_space s) as [|c l] eqn:E.
    + now apply (proj1 (dropWhile_nil _ _)).
    + simpl in H. apply andb_true_iff in H. destruct H as [Hc _].
      pose proof (dropWhile_head is_space s c) as Hh. rewrite E in Hh.
      specialize (Hh eq_refl). congruence.
  - intros H. apply (proj2 (dropWhile_nil _ _)) in H. rewrite H.
    reflexivity.
Qed.


End Dataset.




(** X16. The handler of the bias route answers 400 to a text exactly
    when the text is empty or white space only, before it asks for the
    model; any other text gets, once the model is there, the response
    of [predict] on that very text, and 500 if the model cannot be had. *)
Theorem POST_validation (text : jsstring) (model : option BiasModel)
  (m : BiasModel) :
  (POST (TextString text) model = Bias400 <-> forallb is_space text = true)
  /\ (forallb is_space text = false ->
      POST (TextString text) (Some m) = Bias200 (respond m text)
      /\ POST (TextString text) None = Bias500)
  /\ POST TextFalsy model = Bias400.
Proof.
  assert (Hblank : forallb is_space text = true ->
                   POST (TextString text) model = Bias400).
  { intros H. apply (proj2 (trim_nil _)) in H. unfold POST.
    destruct text as [|c text']; [reflexivity|]. now rewrite H. }
  assert (Hfull : forallb is_space text = false ->
                  forall mo, POST (TextString text) mo
                             = match mo with
                               | Some m' => Bias200 (respond m' text)
                               | None => Bias500
                               end).
  { intros H mo. unfold POST.
    destruct text as [|c text']; [discriminate|].
    destruct (trim (c :: text')) eqn:E; [|reflexivity].
    apply (proj1 (trim_nil _)) in E. congruence. }
  split; [|split; [|reflexivity]].
  - split; [|exact Hblank].
    intros H. destruct (forallb is_space text) eqn:E; [reflexivity|].
    rewrite (Hfull eq_refl model) in H. destruct model; discriminate.
  - intros H. split; apply (Hfull H).
Qed.

Lemma POST_validation_witness :
  POST (TextString (js "Critics argue.")) (Some emptyModel)
  = Bias200 (respond emptyModel (js "Critics argue."))
  /\ POST (TextString (js "Critics argue.")) None = Bias500.
Proof.
  apply (proj1 (proj2 (POST_validation (js "Critics argue.") None emptyModel))).
  reflexivity.
Defined.

(* ===================================================================== *)
(** ** More on the summariser and its route *)
(* ===================================================================== *)

Section SummaryMore.
Import Summarize.

Lemma collapse_blank (t : jsstring) :
  forall b, forallb is_space (collapse b t) = forallb is_space t.
Proof.
  induction t as [|c t IH]; intros b; [reflexivity|].
  cbn [collapse]. destruct (is_space c) eqn:E.
  - destruct b; cbn [forallb]; rewrite E, IH; reflexivity.
  - cbn [forallb]. now rewrite E.
Qed.

Lemma normalize_nil (text : jsstring) :
  normalize text = [] <-> forallb is_space text = true.
Proof.
  unfold normalize. rewrite replaceAll_spaces, trim_nil.
  now rewrite collapse_blank.
Qed.

Lemma trim_last (s : jsstring) (x : N) :
  head (rev (trim s)) = Some x -> is_space x = false.
Proof.
  unfold trim. rewrite rev_involutive. apply dropWhile_head.
Qed.

Lemma starts_with_app (k s : jsstring) : starts_with k (k ++ s) = true.
Proof. apply includes_here. Qed.

Lemma join_head (sep x : jsstring) (xs : list jsstring) :
  exists rest, join sep (x :: xs) = x ++ rest.
Proof.
  destruct xs as [|y xs].
  - exists []. simpl. now rewrite app_nil_r.
  - exists (sep ++ join sep (y :: xs)). reflexivity.
Qed.

End SummaryMore.

(** X17. [truncate] returns a string within the budget unchanged.  A
    longer one becomes a piece of the string, taken from its first
    [max] code units and at most that long, followed by the ellipsis;
    so the result never has more than [max + 1] code units. *)
Theorem truncate_contract (s : jsstring) (max : nat) :
  (List.length s <= max -> Summarize.truncate s max = s)
  /\ (max < List.length s ->
      exists body pre post,
        Summarize.truncate s max = body ++ Summarize.ellipsis
        /\ firstn max s = pre ++ body ++ post
        /\ List.length body <= max)
  /\ List.length (Summarize.truncate s max) <= max + 1.
Proof.
  split; [|split; [|apply truncate_length]].
  - intros H. unfold Summarize.truncate.
    apply Nat.leb_le in H. now rewrite H.
  - intros H. unfold Summarize.truncate.
    assert (E : (List.length s <=? max) = false) by (apply Nat.leb_gt; lia).
    rewrite E. unfold slice0.
    set (cut := firstn max s).
    assert (Hcut : List.length cut <= max).
    { unfold cut. rewrite length_firstn. lia. }
    assert (Hpiece : forall x post0,
               cut = x ++ post0 ->
               exists body pre post,
                 trim x ++ Summarize.ellipsis = body ++ Summarize.ellipsis
                 /\ cut = pre ++ body ++ post
                 /\ List.length body <= max).
    { intros x post0 Hx. destruct (trim_split x) as [pre [post Hsplit]].
      exists (trim x), pre, (post ++ post0). split; [reflexivity|]. split.
      - rewrite Hx. rewrite Hsplit at 1. now rewrite <- !app_assoc.
      - pose proof (trim_length x) as Hl.
        apply (f_equal (@List.length N)) in Hx. rewrite length_app in Hx.
        lia. }
    destruct (Summarize.omax _ _) as [b|].
    + destruct (40 <? b).
      * apply (Hpiece (firstn b cut) (skipn b cut)).
        symmetry. apply firstn_skipn.
      * apply (Hpiece cut []). now rewrite app_nil_r.
    + apply (Hpiece cut []). now rewrite app_nil_r.
Qed.

Lemma truncate_contract_witness :
  Summarize.truncate (js "short enough") 20 = js "short enough".
Proof.
  apply (proj1 (truncate_contract (js "short enough") 20)).
  vm_compute. lia.
Defined.

(** X18. The normalised text has single spaces as its only white space
    and none at its ends, and normalising it again changes nothing.  It
    is empty exactly when the text is empty or white space only, and
    then the summary is the line saying that there is no content. *)
Theorem normalize_tidy (text : jsstring) (maxPoints : nat) :
  Summarize.normalize (Summarize.normalize text) = Summarize.normalize text
  /\ tidy false (Summarize.normalize text) = true
  /\ (forall c, head (Summarize.normalize text) = Some c ->
                is_space c = false)
  /\ (forall c, head (rev (Summarize.normalize text)) = Some c ->
                is_space c = false)
  /\ (Summarize.normalize text = [] <-> forallb is_space text = true)
  /\ (forallb is_space text = true ->
      Summarize.extractiveSummary text maxPoints
      = js "- No content provided.").
Proof.
  split; [apply normalize_idem|].
  split.
  { unfold Summarize.normalize. rewrite replaceAll_spaces.
    apply tidy_trim, tidy_collapse. }
  split; [intros c; apply trim_head|].
  split; [intros c; apply trim_last|].
  split; [apply normalize_nil|].
  intros H. apply normalize_nil in H.
  unfold Summarize.extractiveSummary. now rewrite H.
Qed.

Lemma normalize_tidy_witness :
  Summarize.extractiveSummary (js "   ") 5 = js "- No content provided.".
Proof.
  apply (proj2 (proj2 (proj2 (proj2 (proj2 (normalize_tidy (js "   ") 5)))))).
  reflexivity.
Defined.

(** X19. Every token of the summariser is a word of the letters a to z
    and the digits, three code units long at least, that is not one of
    its stopwords. *)
Theorem summary_tokens (s t : jsstring) (Hin : In t (Summarize.tokenize s)) :
  3 <= List.length t
  /\ forallb is_az09 t = true
  /\ str_mem t Summarize.stop = false.
Proof.
  unfold Summarize.tokenize in Hin. apply filter_In in Hin.
  destruct Hin as [Hm Hf].
  apply andb_true_iff in Hf. destruct Hf as [Hlen Hstop].
  apply Nat.leb_le in Hlen. apply negb_true_iff in Hstop.
  destruct (matchAll_class is_az09 _ _ Hm) as [_ Haz]. auto.
Qed.

Lemma summary_tokens_witness :
  In (js "2021") (Summarize.tokenize (js "In 2021 the SENATE voted"))
  /\ 3 <= List.length (js "2021")
  /\ forallb is_az09 (js "2021") = true
  /\ str_mem (js "2021") Summarize.stop = false.
Proof.
  assert (Hin : In (js "2021")
                   (Summarize.tokenize (js "In 2021 the SENATE voted"))).
  { vm_compute. tauto. }
  split; [exact Hin|].
  apply (summary_tokens (js "In 2021 the SENATE voted") (js "2021") Hin).
Defined.

(** X20. The summary route answers 400 exactly to the texts that are
    empty or white space only.  For any other text it answers 200
    whatever the provider does: the provider's text when it gives one,
    and otherwise (no key, or a failure, whose message is then sent
    along) the extractive summary in five bullets at most, which is
    never empty. *)
Theorem summary_route_contains_errors (text : jsstring)
  (provider : option SummaryRoute.Provider) (out message : jsstring) :
  (SummaryRoute.POST (SummaryRoute.BodyWith (TextString text)) provider
   = SummaryRoute.Sum400 <-> forallb is_space text = true)
  /\ (forallb is_space text = false ->
      SummaryRoute.POST (SummaryRoute.BodyWith (TextString text))
        (Some (SummaryRoute.ProviderOk out))
      = SummaryRoute.Sum200 out None
      /\ SummaryRoute.POST (SummaryRoute.BodyWith (TextString text))
           (Some (SummaryRoute.ProviderErr message))
         = SummaryRoute.Sum200 (Summarize.extractiveSummary text 5)
             (Some message)
      /\ SummaryRoute.POST (SummaryRoute.BodyWith (TextString text)) None
         = SummaryRoute.Sum200 (Summarize.extractiveSummary text 5) None
      /\ Summarize.extractiveSummary text 5 <> []).
Proof.
  assert (Hfull : forallb is_space text = false ->
            forall p, SummaryRoute.POST
                        (SummaryRoute.BodyWith (TextString text)) p
              = match p with
                | Some (SummaryRoute.ProviderOk o) =>
                    SummaryRoute.Sum200 o None
                | Some (SummaryRoute.ProviderErr e) =>
                    SummaryRoute.Sum200
                      (Summarize.extractiveSummary text 5) (Some e)
                | None =>
                    SummaryRoute.Sum200
                      (Summarize.extractiveSummary text 5) None
                end).
  { intros H p. unfold SummaryRoute.POST.
    destruct text as [|c text']; [discriminate|].
    destruct (trim (c :: text')) eqn:E; [|reflexivity].
    apply (proj1 (trim_nil _)) in E. congruence. }
  split.
  - split.
    + intros H. destruct (forallb is_space text) eqn:E; [reflexivity|].
      rewrite (Hfull eq_refl provider) in H.
      destruct provider as [[o|e]|]; discriminate.
    + intros H. apply (proj2 (trim_nil _)) in H. unfold SummaryRoute.POST.
      destruct text as [|c text']; [reflexivity|]. now rewrite H.
  - intros H. repeat split; try apply (Hfull H).
    apply extractiveSummary_nonempty. lia.
Qed.

Lemma summary_route_contains_errors_witness :
  SummaryRoute.POST (SummaryRoute.BodyWith (TextString (js "Some news.")))
    (Some (SummaryRoute.ProviderErr (js "quota exceeded")))
  = SummaryRoute.Sum200 (Summarize.extractiveSummary (js "Some news.") 5)
      (Some (js "quota exceeded")).
Proof.
  apply (proj1 (proj2 (proj2 (summary_route_contains_errors
    (js "Some news.") None [] (js "quota exceeded")) eq_refl))).
Defined.

Section Keywords.
Import Summarize.
Local Open Scope R_scope.

Lemma str_eqb_refl (a : jsstring) : str_eqb a a = true.
Proof. now apply str_eqb_eq. Qed.

Lemma str_eqb_false (a b : jsstring) : a <> b -> str_eqb a b = false.
Proof.
  intros H. destruct (str_eqb a b) eqn:E; [|reflexivity].
  apply str_eqb_eq in E. contradiction.
Qed.

Lemma str_eqb_sym_false (a b : jsstring) :
  str_eqb a b = false -> str_eqb b a = false.
Proof.
  intros H. apply str_eqb_false. intros ->.
  rewrite str_eqb_refl in H. discriminate.
Qed.

Lemma mget_mset (m : counts) (t t' : jsstring) (v : nat) :
  mget (mset m t v) t' = if str_eqb t t' then Some v else mget m t'.
Proof.
  induction m as [|[k n] m IH]; simpl.
  - destruct (str_eqb t t'); reflexivity.
  - destruct (str_eqb k t) eqn:E; simpl.
    + apply str_eqb_eq in E. subst k.
      destruct (str_eqb t t'); reflexivity.
    + rewrite IH. destruct (str_eqb k t') eqn:E2; [|reflexivity].
      apply str_eqb_eq in E2. subst k. now rewrite (str_eqb_sym_false _ _ E).
Qed.

Lemma mset_keys (m : counts) (t : jsstring) (v : nat) :
  (NoDup (List.map fst m) -> NoDup (List.map fst (mset m t v)))%nat.
Proof.
  induction m as [|[k n] m IH]; simpl; intros Hnd.
  - constructor; [apply not_elem_of_nil | constructor].
  - destruct (str_eqb k t) eqn:E; simpl; [exact Hnd|].
    apply NoDup_cons in Hnd. destruct Hnd as [Hk Hnd].
    apply NoDup_cons. split; [|now apply IH].
    intros Hin. apply Hk. clear IH Hk Hnd.
    induction m as [|[k2 n2] m IHm]; simpl in *.
    + apply list_elem_of_singleton in Hin. subst t.
      rewrite str_eqb_refl in E. discriminate.
    + destruct (str_eqb k2 t); simpl in Hin; [exact Hin|].
      apply elem_of_cons in Hin. apply elem_of_cons.
      destruct Hin as [->|Hin]; [now left | right; now apply IHm].
Qed.

Lemma bump_fold_keys (toks : list jsstring) :
  forall m, NoDup (List.map fst m) ->
            NoDup (List.map fst (fold_left bump toks m)).
Proof.
  induction toks as [|t toks IH]; intros m Hm; [exact Hm|].
  simpl. apply IH. unfold bump. now apply mset_keys.
Qed.

Lemma occurrences_cons (t x : jsstring) (toks : list jsstring) :
  occurrences t (x :: toks)
  = ((if str_eqb t x then 1 else 0) + occurrences t toks)%nat.
Proof. unfold occurrences. simpl. destruct (str_eqb t x); reflexivity. Qed.

(** The counts after the loop over the tokens. *)
Lemma bump_fold_get (toks : list jsstring) (k : jsstring) :
  forall m,
    mget (fold_left bump toks m) k
    = if (occurrences k toks =? 0)%nat then mget m k
      else Some (default 0 (mget m k) + occurrences k toks)%nat.
Proof.
  induction toks as [|t toks IH]; intros m; [reflexivity|].
  cbn [fold_left]. rewrite IH, occurrences_cons. unfold bump.
  rewrite mget_mset.
  destruct (str_eqb t k) eqn:E.
  - apply str_eqb_eq in E. subst t. rewrite str_eqb_refl. simpl.
    destruct (occurrences k toks); simpl; f_equal; lia.
  - rewrite (str_eqb_sym_false _ _ E). reflexivity.
Qed.

Lemma mget_entry (m : counts) (k : jsstring) (v : nat) :
  NoDup (List.map fst m) -> In (k, v) m -> mget m k = Some v.
Proof.
  induction m as [|[k' n] m IH]; simpl; intros Hnd Hin; [contradiction|].
  apply NoDup_cons in Hnd. destruct Hnd as [Hk Hnd].
  destruct Hin as [[= -> ->] | Hin].
  - now rewrite str_eqb_refl.
  - destruct (str_eqb k' k) eqn:E; [|now apply IH].
    apply str_eqb_eq in E. subst k'. exfalso. apply Hk.
    apply list_elem_of_In. apply in_map_iff. exists (k, v). now split.
Qed.

Lemma occurrences_pos (k : jsstring) (toks : list jsstring) :
  (occurrences k toks <> 0)%nat -> In k toks.
Proof.
  induction toks as [|x toks IH]; [now intros H|].
  rewrite occurrences_cons. destruct (str_eqb k x) eqn:E.
  - apply str_eqb_eq in E. subst x. now left.
  - intros H. right. now apply IH.
Qed.

(** Every entry of the table of term frequencies: a token with the
    number of its occurrences. *)
Lemma tf_entries (toks : list jsstring) (k : jsstring) (v : nat) :
  In (k, v) (fold_left bump toks []) ->
  In k toks /\ v = occurrences k toks.
Proof.
  intros Hin.
  pose proof (mget_entry _ k v
                (bump_fold_keys toks [] ltac:(constructor)) Hin) as Hg.
  rewrite bump_fold_get in Hg. simpl in Hg.
  destruct (occurrences k toks) eqn:E; simpl in Hg; [discriminate|].
  injection Hg as <-. split; [|reflexivity].
  apply occurrences_pos. lia.
Qed.

Lemma in_firstn {A} (n : nat) (l : list A) (x : A) :
  In x (firstn n l) -> In x l.
Proof.
  revert n. induction l as [|y l IH]; intros n H.
  - now rewrite firstn_nil in H.
  - destruct n as [|n]; [contradiction|]. simpl in H.
    destruct H as [-> | H]; [now left | right; now apply (IH n)].
Qed.

Lemma sorted_prefix_map {A B} (R : A -> A -> Prop) (R' : B -> B -> Prop)
  (f : A -> B) (l : list A) :
  (forall a b, In a l -> In b l -> R a b -> R' (f a) (f b)) ->
  StronglySorted R l ->
  forall n, StronglySorted R' (List.map f (firstn n l)).
Proof.
  intros Hf Hs. induction Hs as [|a l Hs IH Hall]; intros n.
  - rewrite firstn_nil. constructor.
  - destruct n as [|n]; [constructor|]. cbn [firstn List.map].
    constructor.
    + apply IH. intros x y Hx Hy. apply Hf; now right.
    + apply Forall_forall. intros y Hy. apply list_elem_of_In in Hy.
      apply in_map_iff in Hy. destruct Hy as [x [<- Hx]].
      apply in_firstn in Hx.
      apply Hf; [now left | now right |].
      rewrite Forall_forall in Hall. apply Hall. now apply list_elem_of_In.
Qed.

End Keywords.

(** X21. [topKeywords(s, n)] returns at most [n] keywords, all
    different, each a token of [s], in the order of decreasing number of
    occurrences among the tokens of [s]. *)
Theorem topKeywords_ranked (s : jsstring) (n : nat) :
  let ks := Summarize.topKeywords s n in
  let toks := Summarize.tokenize s in
  List.length ks <= n
  /\ NoDup ks
  /\ (forall k, In k ks -> In k toks)
  /\ StronglySorted (fun a b => occurrences b toks <= occurrences a toks) ks.
Proof.
  intros ks toks. unfold ks, Summarize.topKeywords. fold toks.
  set (tf := fold_left Summarize.bump toks []).
  set (after := fun a b : jsstring * nat => snd a <? snd b).
  assert (Hperm : Permutation (sortWith after tf) tf) by apply sortWith_perm.
  assert (Hentry : forall e, In e (sortWith after tf) ->
                             In (fst e) toks
                             /\ snd e = occurrences (fst e) toks).
  { intros [k v] He. apply (Permutation_in _ Hperm) in He.
    now apply tf_entries. }
  split; [rewrite length_map, length_firstn; lia|]. split; [|split].
  - assert (Hnd : NoDup (List.map fst (sortWith after tf))).
    { rewrite (Permutation_map fst Hperm).
      apply bump_fold_keys. constructor. }
    rewrite <- (firstn_skipn n (sortWith after tf)) in Hnd.
    rewrite List.map_app in Hnd. now apply NoDup_app in Hnd.
  - intros k Hk. apply in_map_iff in Hk. destruct Hk as [e [<- He]].
    apply in_firstn in He. now apply Hentry.
  - apply (sorted_prefix_map
             (fun a b => (INR (snd b) <= INR (snd a))%R)).
    + intros a b Ha Hb Hab.
      destruct (Hentry a Ha) as [_ <-]. destruct (Hentry b Hb) as [_ <-].
      now apply INR_le.
    + apply (sortWith_sorted after (fun e => INR (snd e))).
      intros a b _ _. unfold after. rewrite Nat.ltb_lt. split.
      * apply lt_INR.
      * apply INR_lt.
Qed.

Section Shapes.
Import Summarize.

Lemma pad_short (bullets : list jsstring) (target : nat) :
  2 <= List.length bullets -> target <= 3 ->
  pad 3 bullets target
  = if List.length bullets <? target
    then bullets ++ [js "- Context: brief update"] else bullets.
Proof.
  intros H2 H3. cbn [pad]. destruct (List.length bullets <? target) eqn:E;
    [|reflexivity].
  apply Nat.ltb_lt in E.
  assert (E2 : (List.length (bullets ++ [js "- Context: brief update"])
                <? target) = false).
  { apply Nat.ltb_ge. rewrite length_app. simpl. lia. }
  now rewrite E2.
Qed.

Lemma firstn_all_le {A} (n : nat) (l : list A) :
  List.length l <= n -> firstn n l = l.
Proof. apply firstn_all2. Qed.

(** The bullets of the path for short texts, before the padding: the
    topic, then the key terms and the facts if there are some, then the
    summary. *)
Lemma short_bullets (tB kB fB sB : jsstring) :
  tB <> [] -> sB <> [] ->
  exists mid,
    nonEmpty [tB; kB; fB; sB] = tB :: mid ++ [sB]
    /\ List.length mid <= 2
    /\ forall b, In b mid -> b = kB \/ b = fB.
Proof.
  intros Ht Hs. unfold nonEmpty.
  destruct tB as [|t0 tB]; [contradiction|].
  destruct sB as [|s0 sB]; [contradiction|].
  destruct kB as [|k0 kB], fB as [|f0 fB]; simpl.
  - exists []. split; [reflexivity|]. split; [simpl; lia|].
    intros b [].
  - exists [f0 :: fB]. split; [reflexivity|]. split; [simpl; lia|].
    intros b [<- | []]. now right.
  - exists [k0 :: kB]. split; [reflexivity|]. split; [simpl; lia|].
    intros b [<- | []]. now left.
  - exists [k0 :: kB; f0 :: fB]. split; [reflexivity|].
    split; [simpl; lia|].
    intros b [<- | [<- | []]]; [now left | now right].
Qed.

Lemma map_fst_combine {A B} (l1 : list A) (l2 : list B) :
  List.length l1 = List.length l2 -> List.map fst (combine l1 l2) = l1.
Proof.
  revert l2. induction l1 as [|x l1 IH]; intros [|y l2] H;
    try discriminate; [reflexivity|].
  simpl. f_equal. apply IH. now injection H.
Qed.

Lemma scoreSentences_idx (sentences : list jsstring) :
  List.map (fun x => fst (fst x)) (scoreSentences sentences)
  = seq 0 (List.length sentences).
Proof.
  unfold scoreSentences. rewrite List.map_map. simpl.
  apply map_fst_combine. apply length_seq.
Qed.

Lemma sorted_strict (l : list nat) :
  NoDup l -> StronglySorted le l -> StronglySorted lt l.
Proof.
  intros Hnd Hs. induction Hs as [|a l Hs IH Hall]; [constructor|].
  apply NoDup_cons in Hnd. destruct Hnd as [Ha Hnd].
  constructor; [now apply IH|].
  apply Forall_forall. intros b Hb.
  rewrite Forall_forall in Hall. specialize (Hall b Hb).
  assert (a <> b) by (intros ->; contradiction). lia.
Qed.

End Shapes.

(** X22. For a text whose normalised form has fewer than 280 code units
    the summary is a list of bullets joined by line feeds: at least
    min(3, maxPoints) and at most min(4, maxPoints) of them, each
    starting with the marker of a bullet, and the first one, if any, is
    the topic. *)
Theorem short_summary_shape (text : jsstring) (maxPoints : nat)
  (Hlen : 0 < List.length (Summarize.normalize text) < 280) :
  exists bullets,
    Summarize.extractiveSummary text maxPoints = join [LFu] bullets
    /\ Nat.min 3 maxPoints <= List.length bullets <= Nat.min 4 maxPoints
    /\ Forall (fun b => starts_with (js "- ") b = true) bullets
    /\ (0 < maxPoints ->
        exists rest,
          Summarize.extractiveSummary text maxPoints
          = js "- Topic: " ++ rest).
Proof.
  unfold Summarize.extractiveSummary.
  set (normalized := Summarize.normalize text) in *.
  destruct normalized as [|c0 n0] eqn:En; [simpl in Hlen; lia|].
  rewrite <- En in *.
  assert (Hshort : Summarize.isShort normalized
                     (Summarize.sentencesOf normalized) = true).
  { unfold Summarize.isShort. apply orb_true_iff. left.
    apply Nat.ltb_lt. lia. }
  rewrite Hshort. unfold Summarize.shortSummary.
  set (tB := js "- Topic: " ++ _).
  set (kB := match Summarize.topKeywords normalized 6 with
             | [] => [] | _ => _ end).
  set (fB := match firstn 6 (Summarize.extractNumbersDates normalized) with
             | [] => [] | _ => _ end).
  set (sB := js "- Summary: " ++ _).
  assert (Pt : starts_with (js "- ") tB = true) by reflexivity.
  assert (Ps : starts_with (js "- ") sB = true) by reflexivity.
  assert (Pk : kB = [] \/ starts_with (js "- ") kB = true).
  { unfold kB. destruct (Summarize.topKeywords normalized 6);
      [now left | right; reflexivity]. }
  assert (Pf : fB = [] \/ starts_with (js "- ") fB = true).
  { unfold fB. destruct (firstn 6 _); [now left | right; reflexivity]. }
  destruct (short_bullets tB kB fB sB) as (mid & HL & Hmid & Hin);
    [discriminate | discriminate |].
  rewrite HL.
  assert (Pmid : Forall (fun b => starts_with (js "- ") b = true) mid).
  { apply Forall_forall. intros b Hb. apply list_elem_of_In in Hb.
    assert (Hne : b <> []).
    { intros ->. clear - HL Hb Pt Ps.
      assert (Hall : Forall (fun x : jsstring => x <> [])
                       (Summarize.nonEmpty [tB; kB; fB; sB])).
      { unfold Summarize.nonEmpty. apply Forall_forall. intros x Hx.
        apply list_elem_of_In, filter_In in Hx. destruct Hx as [_ Hx].
        destruct x; [discriminate | discriminate]. }
      rewrite HL in Hall. apply Forall_cons in Hall.
      destruct Hall as [_ Hall]. apply Forall_app in Hall.
      destruct Hall as [Hall _]. rewrite Forall_forall in Hall.
      apply (Hall []); [now apply list_elem_of_In | reflexivity]. }
    destruct (Hin b Hb) as [-> | ->].
    - destruct Pk as [Pk | Pk]; [contradiction | exact Pk].
    - destruct Pf as [Pf | Pf]; [contradiction | exact Pf]. }
  set (L := tB :: mid ++ [sB]).
  assert (HlenL : List.length L = 2 + List.length mid).
  { unfold L. simpl. rewrite length_app. simpl. lia. }
  assert (PL : Forall (fun b => starts_with (js "- ") b = true) L).
  { unfold L. constructor; [exact Pt|]. apply Forall_app. split;
      [exact Pmid | constructor; [exact Ps | constructor]]. }
  rewrite pad_short by lia.
  set (padded := if List.length L <? Nat.min 3 maxPoints
                 then L ++ [js "- Context: brief update"] else L).
  assert (Hpad : Forall (fun b => starts_with (js "- ") b = true) padded
                 /\ Nat.min 3 maxPoints <= List.length padded <= 4
                 /\ exists tl, padded = tB :: tl).
  { unfold padded. destruct (List.length L <? Nat.min 3 maxPoints) eqn:E.
    - apply Nat.ltb_lt in E. split; [|split].
      + apply Forall_app. split; [exact PL|].
        constructor; [reflexivity | constructor].
      + rewrite length_app, HlenL. cbn [List.length]. lia.
      + unfold L. simpl. eauto.
    - apply Nat.ltb_ge in E. split; [exact PL|]. split; [lia|].
      unfold L. eauto. }
  destruct Hpad as (Pp & Hbounds & tl & Htl).
  exists (firstn maxPoints padded). split; [reflexivity|].
  split; [rewrite length_firstn; lia|]. split.
  - rewrite <- (firstn_skipn maxPoints padded) in Pp.
    now apply Forall_app in Pp.
  - intros Hpos. rewrite Htl. destruct maxPoints as [|k]; [lia|].
    cbn [firstn]. destruct (join_head [LFu] tB (firstn k tl)) as [rest Hr].
    rewrite Hr. unfold tB. rewrite <- app_assoc. eauto.
Qed.

Lemma short_summary_shape_witness :
  exists bullets,
    Summarize.extractiveSummary (js "Markets rose 3% on Monday.") 5
    = join [LFu] bullets
    /\ 3 <= List.length bullets <= 4.
Proof.
  destruct (short_summary_shape (js "Markets rose 3% on Monday.") 5)
    as (bullets & H1 & H2 & _).
  { vm_compute. split; lia. }
  exists bullets. split; [exact H1 | exact H2].
Defined.

(** X23. On the standard path the sentences chosen keep the order of the
    text: the summary is either the two forced lines or the bullets of
    sentences whose positions increase strictly, all of them positions
    of sentences, as many as the target (the least of [maxPoints] and
    of the greater of 3 and the quarter, rounded up, of the number of
    sentences) allows. *)
Theorem standard_summary_order (normalized : jsstring)
  (sentences : list jsstring) (maxPoints : nat) :
  exists idxs,
    StronglySorted lt idxs
    /\ Forall (fun i => i < List.length sentences) idxs
    /\ List.length idxs
       = Nat.min (Nat.min maxPoints
                    (Nat.max 3 ((List.length sentences + 3) / 4)))
                 (List.length sentences)
    /\ (Summarize.standardSummary normalized sentences maxPoints
        = join [LFu]
            (List.map
               (fun i => js "- "
                         ++ Summarize.truncate (nth i sentences []) 180)
               idxs)
        \/ Summarize.standardSummary normalized sentences maxPoints
           = join [LFu]
               [js "- Summary:";
                js "- " ++ Summarize.truncate normalized 200]).
Proof.
  unfold Summarize.standardSummary.
  set (scored := sortWith _ (Summarize.scoreSentences sentences)).
  set (target := Nat.min maxPoints _).
  set (picked := List.map (fun x => fst (fst x)) (firstn target scored)).
  set (idxs := sortWith (fun a b => b <? a) picked).
  assert (Hscored : Permutation (List.map (fun x => fst (fst x)) scored)
                                (seq 0 (List.length sentences))).
  { unfold scored. rewrite (Permutation_map _ (sortWith_perm _ _)).
    now rewrite scoreSentences_idx. }
  assert (Hpick : picked
                  = firstn target (List.map (fun x => fst (fst x)) scored)).
  { unfold picked. symmetry. apply firstn_map. }
  assert (Hnd : NoDup picked).
  { assert (H : NoDup (List.map (fun x => fst (fst x)) scored)).
    { rewrite Hscored. apply NoDup_seq. }
    rewrite <- (firstn_skipn target _) in H. rewrite <- Hpick in H.
    now apply NoDup_app in H. }
  assert (Hperm : Permutation idxs picked) by apply sortWith_perm.
  exists idxs. split; [|split; [|split]].
  - apply sorted_strict; [now rewrite Hperm|].
    assert (Hs : StronglySorted
                   (fun a b => (- INR b <= - INR a)%R) idxs).
    { apply (sortWith_sorted _ (fun a => (- INR a)%R)).
      intros a b _ _. rewrite Nat.ltb_lt. split.
      - intros H. apply lt_INR in H. lra.
      - intros H. apply INR_lt. lra. }
    clear - Hs. induction Hs as [|a l Hs IH Hall]; constructor;
      [exact IH|].
    eapply Forall_impl; [exact Hall|]. simpl. intros b Hb.
    apply INR_le. lra.
  - apply Forall_forall. intros i Hi. apply list_elem_of_In in Hi.
    apply (Permutation_in _ Hperm) in Hi. rewrite Hpick in Hi.
    apply in_firstn in Hi. apply (Permutation_in _ Hscored) in Hi.
    apply in_seq in Hi. lia.
  - rewrite (Permutation_length Hperm). unfold picked.
    rewrite length_map, length_firstn. f_equal.
    unfold scored. rewrite (Permutation_length (sortWith_perm _ _)).
    apply scoreSentences_length.
  - match goal with |- context [if ?c then _ else _] => destruct c end;
      [now right | now left].
Qed.
(* ===================================================================== *)
(** ** The summariser as a whole *)
(* ===================================================================== *)

(** X24. A text whose normalised form has at least 280 code units and
    more than two sentences is never given back as its own summary: the
    summary differs from the text, also after white space is collapsed
    and trimmed and the case lowered. *)
Theorem long_text_not_echoed (text : jsstring) (maxPoints : nat)
  (Hlen : 280 <= List.length (Summarize.normalize text))
  (Hsent : 2 < List.length
                 (Summarize.sentencesOf (Summarize.normalize text))) :
  Summarize.canonical (Summarize.extractiveSummary text maxPoints)
  <> Summarize.canonical text
  /\ Summarize.extractiveSummary text maxPoints <> text.
Proof.
  assert (Hlong : Summarize.isShort (Summarize.normalize text)
                    (Summarize.sentencesOf (Summarize.normalize text))
                  = false).
  { unfold Summarize.isShort. apply orb_false_iff. split.
    - apply Nat.ltb_ge. exact Hlen.
    - apply Nat.leb_gt. exact Hsent. }
  pose proof (standard_path_never_echoes text maxPoints) as H.
  cbv zeta in H. destruct (H Hlong) as (_ & Hne & Hsame).
  assert (Hc : Summarize.canonical
                 (Summarize.extractiveSummary text maxPoints)
               <> Summarize.canonical text).
  { rewrite <- Hsame. exact Hne. }
  split; [exact Hc|]. intros Heq. apply Hc. now rewrite Heq.
Qed.

Lemma long_text_not_echoed_witness :
  Summarize.extractiveSummary
    (js "The council met on Monday to vote on the new budget for schools. Members argued for hours about the cost of the plan. The mayor said that the town cannot pay for every project at once! Teachers asked for more staff and for repairs of old buildings. A final vote is expected next week, after a public hearing in the town hall.") 5
  <> js "The council met on Monday to vote on the new budget for schools. Members argued for hours about the cost of the plan. The mayor said that the town cannot pay for every project at once! Teachers asked for more staff and for repairs of old buildings. A final vote is expected next week, after a public hearing in the town hall.".
Proof.
  refine (proj2 (long_text_not_echoed _ 5 _ _)).
  - apply Nat.leb_le. vm_compute. reflexivity.
  - apply Nat.ltb_lt. vm_compute. reflexivity.
Defined.

(** X25. Whatever the text, a summary of at least one bullet starts with
    the marker of a bullet, a hyphen and a space; it is never the empty
    string. *)
Theorem summary_starts_with_bullet (text : jsstring) (maxPoints : nat)
  (Hpos : 0 < maxPoints) :
  exists rest,
    Summarize.extractiveSummary text maxPoints = js "- " ++ rest.
Proof.
  unfold Summarize.extractiveSummary.
  destruct (Summarize.normalize text) as [|c normalized] eqn:E.
  { exists (js "No content provided."). reflexivity. }
  set (n := c :: normalized).
  destruct (Summarize.isShort _ _).
  - unfold Summarize.shortSummary.
    set (rest := [_; _; _]).
    change (Summarize.nonEmpty (?x :: rest))
      with (x :: Summarize.nonEmpty rest).
    destruct (pad_head 3
                (js "- Topic: " ++ Summarize.truncate
                   (Summarize.titleFromText (Summarize.sentencesOf n) n) 90)
                (Summarize.nonEmpty rest) (Nat.min 3 maxPoints))
      as [ys ->].
    destruct maxPoints as [|k]; [lia|]. cbn [firstn].
    match goal with
    | |- context [join ?sep (?x :: ?xs)] =>
        destruct (join_head sep x xs) as [r ->]
    end.
    exists (js "Topic: " ++ Summarize.truncate
              (Summarize.titleFromText (Summarize.sentencesOf n) n) 90
            ++ r).
    now rewrite <- !app_assoc.
  - unfold Summarize.standardSummary.
    match goal with |- context [if ?b then _ else _] => destruct b end.
    { exists (js "Summary:" ++ [LFu] ++ js "- "
                ++ Summarize.truncate n 200). reflexivity. }
    set (sentences := Summarize.sentencesOf n).
    set (scored := sortWith _ (Summarize.scoreSentences sentences)).
    set (target := Nat.min maxPoints _).
    assert (Hsc : scored <> []).
    { apply sortWith_nonempty. intros H.
      pose proof (scoreSentences_length sentences) as Hl. rewrite H in Hl.
      pose proof (sentencesOf_nonempty n) as Hn. fold sentences in Hn.
      destruct sentences; [contradiction | discriminate]. }
    assert (Ht : 0 < target) by (unfold target; lia).
    destruct scored as [|x scored']; [contradiction|].
    destruct target as [|k]; [lia|]. cbn [firstn List.map].
    set (idxs := sortWith _ _).
    assert (Hid : idxs <> []) by (apply sortWith_nonempty; discriminate).
    destruct idxs as [|i idxs']; [contradiction|]. cbn [List.map].
    match goal with
    | |- context [join ?sep (?x :: ?xs)] =>
        destruct (join_head sep x xs) as [r ->]
    end.
    exists (Summarize.truncate (nth i sentences []) 180 ++ r).
    now rewrite <- app_assoc.
Qed.

Lemma summary_starts_with_bullet_witness :
  exists rest,
    Summarize.extractiveSummary (js "Markets rose 3% on Monday.") 1
    = js "- " ++ rest.
Proof.
  apply (summary_starts_with_bullet (js "Markets rose 3% on Monday.") 1).
  lia.
Defined.
